(** * LabLog: the geocoding pipeline of the case-log application

    A shallow embedding of the map-loading code of [LabLog.py]:
    the geocache access functions ([get_cached_location_db],
    [add_cached_location_db]), the background worker
    ([_geocode_locations_in_thread]), and the user-interface side
    ([load_map_markers], [_process_geocoding_results],
    [_finalize_map_loading], [update_status]).

    Conventions of the embedding.
    - Python [str] values are [string]s whose characters are read as code
      points below 256.
    - Latitudes and longitudes are binary64 floats, as in Python.
    - Whatever the code obtains from outside (the value of [root._running]
      at a check, the reply of the Nominatim service, an sqlite3 failure,
      the outcome of the Tk calls that sit in a [try] block of their own,
      the order in which [list] gives a set, how far a thread has got when
      the application looks at its queue) is supplied by an environment
      record or by the order of the steps, so that every theorem
      quantifies over all behaviours of the outside world.
    - Exceptions are explicit: the worker runs in a state-and-exception
      monad and [try]/[except] is a combinator of that monad. *)

From Stdlib Require Import Floats.PrimFloat QArith.QArith_base.
From Stdlib Require Import Strings.String Strings.Ascii Numbers.DecimalString.
From Stdlib Require Import Lia.
From stdpp Require Import base option list gmap sets strings.

Set Warnings "-inexact-float".



(** ** Python string helpers *)

Module Py.

(** [str.isspace] on one character, for code points below 256. *)
Definition isspace (c : ascii) : bool :=
  let n := nat_of_ascii c in
  ((9 <=? n)%nat && (n <=? 13)%nat) || ((28 <=? n)%nat && (n <=? 32)%nat)
  || (n =? 133)%nat || (n =? 160)%nat.

Fixpoint lstrip (s : string) : string :=
  match s with
  | EmptyString => EmptyString
  | String c r => if isspace c then lstrip r else s
  end.

Fixpoint rstrip (s : string) : string :=
  match s with
  | EmptyString => EmptyString
  | String c r =>
      match rstrip r with
      | EmptyString => if isspace c then EmptyString else String c EmptyString
      | r' => String c r'
      end
  end.

(** [s.strip()] *)
Definition strip (s : string) : string := rstrip (lstrip s).

(** [x or ""], for a value that is a string or [None]. *)
Definition or_empty (x : option string) : string :=
  match x with Some s => s | None => "" end.

(** Truth value of a string: non-empty. *)
Definition truthy (s : string) : bool :=
  match s with EmptyString => false | String _ _ => true end.

(** [str(n)] for a non-negative integer. *)
Definition str_int (n : nat) : string :=
  NilEmpty.string_of_uint (Nat.to_uint n).

(** [s.startswith(p)] *)
Definition startswith (s p : string) : bool := String.prefix p s.

(** The newline character of the f-strings. *)
Definition nl : string := String (ascii_of_nat 10) EmptyString.

Fixpoint insert_sorted (x : string) (l : list string) : list string :=
  match l with
  | [] => [x]
  | y :: r => if String.leb x y then x :: l else y :: insert_sorted x r
  end.

(** [sorted(l)] on strings: ascending code-point order. *)
Definition sorted (l : list string) : list string :=
  foldr insert_sorted [] l.

(** Number of (possibly overlapping) occurrences of [needle] in [hay]. *)
Fixpoint occurrences (needle hay : string) : nat :=
  match hay with
  | EmptyString => 0
  | String _ r =>
      ((if String.prefix needle hay then 1 else 0) + occurrences needle r)%nat
  end.

End Py.

(** ** The worker thread *)

Module Worker.

(** A location is the tuple [(city, state)]. *)
Abbreviation location := (string * string)%type.

(** The tuples put on the result queue, by their first component.
    ['success'] is never produced by the worker; the consumer still
    accepts it. *)
Inductive item : Type :=
| success_cached (city state : string) (latitude longitude : float)
| success_geocoded (city state : string) (latitude longitude : float)
| success (city state : string) (latitude longitude : float)
| skipped (city state reason : string)
| finished.

(** Exceptions, all subclasses of [Exception]; [msg] is [str(e)]. *)
Inductive exn : Type :=
| GeocoderTimedOut (msg : string)
| GeocoderUnavailable (msg : string)
| sqlite3_Error (msg : string)
| OtherException (msg : string).

Definition str_exn (e : exn) : string :=
  match e with
  | GeocoderTimedOut m | GeocoderUnavailable m
  | sqlite3_Error m | OtherException m => m
  end.

(** A row of the [geocache] table, without its key. *)
Record row : Type := {
  latitude : float;
  longitude : float;
  last_accessed : string
}.

(** What the thread does to the outside, in order. *)
Inductive effect : Type :=
| nominatim_geocode (query : string) (timeout : nat)
| queue_put (it : item)
| time_sleep (seconds : Q).

(** The [geocache] table and the effects so far. *)
Record world : Type := {
  geocache : gmap string row;
  history : list effect
}.

Definition record_effect (e : effect) (w : world) : world :=
  {| geocache := geocache w; history := history w ++ [e] |}.

Definition set_geocache (g : gmap string row) (w : world) : world :=
  {| geocache := g; history := history w |}.

(** The contents of the result queue: the items put, first in first out. *)
Fixpoint queue_of (h : list effect) : list item :=
  match h with
  | [] => []
  | queue_put it :: r => it :: queue_of r
  | _ :: r => queue_of r
  end.

Definition result_queue (w : world) : list item := queue_of (history w).

(** The reply of [thread_geolocator.geocode]. *)
Inductive geocode_reply : Type :=
| Located (lat lon : float)
| NoMatch
| Fails (e : exn).

(** The outside world as one run of the thread meets it; [index] is the
    loop index of the iteration that asks. *)
Record env : Type := {
  root_running : nat -> bool;
  select_error : nat -> option string;
  replace_error : nat -> option string;
  now : nat -> string;
  geocode : nat -> string -> geocode_reply
}.

(** *** State and exceptions *)

Inductive outcome (A : Type) : Type :=
| Return (a : A)
| Raise (e : exn).
Arguments Return {A} a.
Arguments Raise {A} e.

Definition M (A : Type) : Type := world -> outcome A * world.

Definition ret {A} (a : A) : M A := fun w => (Return a, w).

Definition raise {A} (e : exn) : M A := fun w => (Raise e, w).

Definition bind {A B} (m : M A) (k : A -> M B) : M B :=
  fun w =>
    match m w with
    | (Return a, w') => k a w'
    | (Raise e, w') => (Raise e, w')
    end.

Definition try_except {A} (body : M A) (handler : exn -> M A) : M A :=
  fun w =>
    match body w with
    | (Return a, w') => (Return a, w')
    | (Raise e, w') => handler e w'
    end.

Notation "x <- m ;; k" := (bind m (fun x => k))
  (at level 100, m at level 99, k at level 200, right associativity).
Notation "m ;; k" := (bind m (fun _ => k))
  (at level 100, k at level 200, right associativity).

Definition put (it : item) : M unit :=
  fun w => (Return tt, record_effect (queue_put it) w).

Definition sleep (seconds : Q) : M unit :=
  fun w => (Return tt, record_effect (time_sleep seconds) w).

(** *** The geocache *)

(** [cursor.execute("SELECT latitude, longitude ...")] and [fetchone]. *)
Definition execute_select (err : option string) (location_key : string)
  : M (option row) :=
  fun w =>
    match err with
    | Some msg => (Raise (sqlite3_Error msg), w)
    | None => (Return (geocache w !! location_key), w)
    end.

(** The values that a [REAL NOT NULL] column gives back as they were
    written: SQLite stores NaN as NULL, which the column refuses with an
    [sqlite3.IntegrityError], and reads negative zero back as zero. *)
Definition stored_as_written (x : float) : bool :=
  match PrimFloat.classify x with
  | FloatClass.NaN | FloatClass.NZero => false
  | _ => true
  end.

(** [cursor.execute("INSERT OR REPLACE ...")] and [commit]. The failures
    of the statement, the refusal of a NaN among them, are those of [err];
    the row is kept as given, as SQLite does for the coordinates that are
    [stored_as_written]. *)
Definition execute_replace (err : option string) (location_key : string)
    (r : row) : M unit :=
  fun w =>
    match err with
    | Some msg => (Raise (sqlite3_Error msg), w)
    | None => (Return tt, set_geocache (<[location_key := r]> (geocache w)) w)
    end.

Definition get_cached_location_db (err : option string)
    (location_key : string) : M (option (float * float)) :=
  try_except
    (r <- execute_select err location_key ;;
     match r with
     | Some r => ret (Some (latitude r, longitude r))
     | None => ret None
     end)
    (fun _ => ret None).

Definition add_cached_location_db (err : option string) (timestamp : string)
    (location_key : string) (lat lon : float) : M bool :=
  try_except
    (execute_replace err location_key
       {| latitude := lat; longitude := lon; last_accessed := timestamp |} ;;
     ret true)
    (fun _ => ret false).

(** *** [_geocode_locations_in_thread] *)

Definition cache_key (city state : string) : string :=
  city +:+ "|" +:+ state.

Definition query_string (city state : string) : string :=
  city +:+ ", " +:+ state +:+ ", USA".

(** [thread_geolocator.geocode(location_string, timeout=10)] *)
Definition call_geocode (e : env) (index : nat) (location_string : string)
    (timeout : nat) : M (option (float * float)) :=
  fun w =>
    let w' := record_effect (nominatim_geocode location_string timeout) w in
    match geocode e index location_string with
    | Located lat lon => (Return (Some (lat, lon)), w')
    | NoMatch => (Return None, w')
    | Fails x => (Raise x, w')
    end.

Inductive flow : Type := next_iteration | break_loop.

(** One iteration of the [for] loop. *)
Definition loop_body (e : env) (index : nat) (location_tuple : location)
  : M flow :=
  let '(city, state) := location_tuple in
  let location_cache_key := cache_key city state in
  if negb (root_running e index) then ret break_loop
  else
    cached_coords <-
      get_cached_location_db (select_error e index) location_cache_key ;;
    match cached_coords with
    | Some (lat, lon) =>
        put (success_cached city state lat lon) ;;
        ret next_iteration
    | None =>
        let location_string := query_string city state in
        try_except
          (loc <- call_geocode e index location_string 10 ;;
           match loc with
           | Some (lat, lon) =>
               add_cached_location_db (replace_error e index) (now e index)
                 location_cache_key lat lon ;;
               put (success_geocoded city state lat lon)
           | None =>
               put (skipped city state "Could not geolocate via Nominatim")
           end)
          (fun x =>
             match x with
             | GeocoderTimedOut _ =>
                 put (skipped city state "Geocoding timed out")
             | GeocoderUnavailable _ =>
                 put (skipped city state "Geocoding service unavailable")
             | _ =>
                 put (skipped city state ("Nominatim Error: " +:+ str_exn x))
             end) ;;
        sleep (11 # 10) ;;
        ret next_iteration
    end.

Fixpoint for_each (e : env) (index : nat) (locations : list location)
  : M unit :=
  match locations with
  | [] => ret tt
  | location_tuple :: rest =>
      f <- loop_body e index location_tuple ;;
      match f with
      | next_iteration => for_each e (S index) rest
      | break_loop => ret tt
      end
  end.

Definition _geocode_locations_in_thread (e : env)
    (locations : list location) : M unit :=
  for_each e 0 locations ;;
  put finished.

(** One run of the thread on a queue of its own, started when the table is
    [g]: the items it puts, and the table it leaves. *)
Definition thread_items (e : env) (locations : list location)
    (g : gmap string row) : list item :=
  result_queue
    (_geocode_locations_in_thread e locations
       {| geocache := g; history := [] |}).2.

Definition thread_geocache (e : env) (locations : list location)
    (g : gmap string row) : gmap string row :=
  geocache
    (_geocode_locations_in_thread e locations
       {| geocache := g; history := [] |}).2.

(** The stop flag is first seen set by the check of iteration [k]. *)
Definition stops_at (e : env) (k : nat) : Prop :=
  (forall i, i < k -> root_running e i = true) /\ root_running e k = false.

(** *** What one iteration does *)

(** The item that belongs to a location: one of the three result tuples
    carrying its city and state. *)
Definition item_for (l : location) (it : item) : Prop :=
  match it with
  | success_cached c s _ _ | success_geocoded c s _ _ | skipped c s _ =>
      (c, s) = l
  | success _ _ _ _ | finished => False
  end.

(** What [get_cached_location_db] returns in a given world. *)
Definition cached_coords (e : env) (index : nat) (key : string) (w : world)
  : option (float * float) :=
  match select_error e index with
  | Some _ => None
  | None => (fun r => (latitude r, longitude r)) <$> geocache w !! key
  end.

(** The item put for a location that was not found in the cache. *)
Definition miss_item (e : env) (index : nat) (city state : string) : item :=
  match geocode e index (query_string city state) with
  | Located lat lon => success_geocoded city state lat lon
  | NoMatch => skipped city state "Could not geolocate via Nominatim"
  | Fails (GeocoderTimedOut _) => skipped city state "Geocoding timed out"
  | Fails (GeocoderUnavailable _) =>
      skipped city state "Geocoding service unavailable"
  | Fails x => skipped city state ("Nominatim Error: " +:+ str_exn x)
  end.

(** The table after the iteration of a location not found in the cache. *)
Definition miss_geocache (e : env) (index : nat) (city state : string)
    (g : gmap string row) : gmap string row :=
  match geocode e index (query_string city state), replace_error e index with
  | Located lat lon, None =>
      <[cache_key city state :=
          {| latitude := lat; longitude := lon;
             last_accessed := now e index |}]> g
  | _, _ => g
  end.

(** The reason put for a location whose geocoder call raised [x]. *)
Definition failure_reason (x : exn) : string :=
  match x with
  | GeocoderTimedOut _ => "Geocoding timed out"
  | GeocoderUnavailable _ => "Geocoding service unavailable"
  | _ => "Nominatim Error: " +:+ str_exn x
  end.

(** How many locations are processed before the stop flag is seen. *)
Fixpoint processed (e : env) (index : nat) (locations : list location)
  : nat :=
  match locations with
  | [] => 0
  | _ :: rest =>
      if root_running e index then S (processed e (S index) rest) else 0
  end.

End Worker.

(** ** The application object and the objects it shares with its threads *)

Module App.
Import Worker.

(** A row of [case_log] as the dictionary [get_all_cases_db] returns it,
    restricted to the columns the map reads; a NULL column is [None]. *)
Record case : Type := {
  city_of_offense : option string;
  state_of_offense : option string;
  offense_type : option string
}.

(** A marker of the map widget: [set_marker(latitude, longitude, text="",
    icon=..., command=self.on_marker_click, data=...)]. *)
Record marker : Type := {
  position : float * float;
  data : string
}.

(** What the map widget shows: a position and a zoom level, or the result
    of [fit_markers]. *)
Inductive view : Type :=
| centered (lat lon : float) (zoom : nat)
| fitted.

(** A worker thread object: the queue it was given, what it has computed
    but not put yet, and [is_alive()]. *)
Record thread : Type := {
  th_queue : nat;
  th_pending : list item;
  th_alive : bool
}.

(** The attributes of [CaseLogApp] the map code uses, the widgets behind
    them, and the [queue.Queue] and [threading.Thread] objects, which the
    application and the threads share: [geocoding_queue] and
    [geocoding_thread] are references into [queues] and [threads].
    [status_label] is the text of the status bar, [None] when the label
    does not exist; [map_widget] tells whether the map widget has been
    created and [winfo_exists()]; [after_scheduled] counts the pending
    [root.after(50, self._process_geocoding_results)] callbacks. The timer
    of the status-bar animation is outside the model. *)
Record state : Type := {
  running : bool;
  after_scheduled : nat;
  map_widget : bool;
  canvas_markers : list marker;
  map_view : view;
  map_status_label : string;
  status_label : option string;
  status_text : string;
  map_markers : gmap location marker;
  _grouped_cases_by_location : gmap location (list case);
  geocoding_queue : nat;
  geocoding_thread : option nat;
  processing_queue : bool;
  geolocated_count : nat;
  skipped_count : nat;
  queues : list (list item);
  threads : list thread
}.

(** Assignment to one attribute. *)

Definition set_running (v : bool) (s : state) : state :=
  {| running := v; after_scheduled := after_scheduled s;
     map_widget := map_widget s; canvas_markers := canvas_markers s;
     map_view := map_view s; map_status_label := map_status_label s;
     status_label := status_label s; status_text := status_text s;
     map_markers := map_markers s;
     _grouped_cases_by_location := _grouped_cases_by_location s;
     geocoding_queue := geocoding_queue s;
     geocoding_thread := geocoding_thread s;
     processing_queue := processing_queue s;
     geolocated_count := geolocated_count s;
     skipped_count := skipped_count s; queues := queues s;
     threads := threads s |}.

Definition set_after_scheduled (v : nat) (s : state) : state :=
  {| running := running s; after_scheduled := v; map_widget := map_widget s;
     canvas_markers := canvas_markers s; map_view := map_view s;
     map_status_label := map_status_label s; status_label := status_label s;
     status_text := status_text s; map_markers := map_markers s;
     _grouped_cases_by_location := _grouped_cases_by_location s;
     geocoding_queue := geocoding_queue s;
     geocoding_thread := geocoding_thread s;
     processing_queue := processing_queue s;
     geolocated_count := geolocated_count s;
     skipped_count := skipped_count s; queues := queues s;
     threads := threads s |}.

Definition set_map_widget (v : bool) (s : state) : state :=
  {| running := running s; after_scheduled := after_scheduled s;
     map_widget := v; canvas_markers := canvas_markers s;
     map_view := map_view s; map_status_label := map_status_label s;
     status_label := status_label s; status_text := status_text s;
     map_markers := map_markers s;
     _grouped_cases_by_location := _grouped_cases_by_location s;
     geocoding_queue := geocoding_queue s;
     geocoding_thread := geocoding_thread s;
     processing_queue := processing_queue s;
     geolocated_count := geolocated_count s;
     skipped_count := skipped_count s; queues := queues s;
     threads := threads s |}.

Definition set_canvas_markers (v : list marker) (s : state) : state :=
  {| running := running s; after_scheduled := after_scheduled s;
     map_widget := map_widget s; canvas_markers := v; map_view := map_view s;
     map_status_label := map_status_label s; status_label := status_label s;
     status_text := status_text s; map_markers := map_markers s;
     _grouped_cases_by_location := _grouped_cases_by_location s;
     geocoding_queue := geocoding_queue s;
     geocoding_thread := geocoding_thread s;
     processing_queue := processing_queue s;
     geolocated_count := geolocated_count s;
     skipped_count := skipped_count s; queues := queues s;
     threads := threads s |}.

Definition set_map_view (v : view) (s : state) : state :=
  {| running := running s; after_scheduled := after_scheduled s;
     map_widget := map_widget s; canvas_markers := canvas_markers s;
     map_view := v; map_status_label := map_status_label s;
     status_label := status_label s; status_text := status_text s;
     map_markers := map_markers s;
     _grouped_cases_by_location := _grouped_cases_by_location s;
     geocoding_queue := geocoding_queue s;
     geocoding_thread := geocoding_thread s;
     processing_queue := processing_queue s;
     geolocated_count := geolocated_count s;
     skipped_count := skipped_count s; queues := queues s;
     threads := threads s |}.

Definition set_map_status_label (v : string) (s : state) : state :=
  {| running := running s; after_scheduled := after_scheduled s;
     map_widget := map_widget s; canvas_markers := canvas_markers s;
     map_view := map_view s; map_status_label := v;
     status_label := status_label s; status_text := status_text s;
     map_markers := map_markers s;
     _grouped_cases_by_location := _grouped_cases_by_location s;
     geocoding_queue := geocoding_queue s;
     geocoding_thread := geocoding_thread s;
     processing_queue := processing_queue s;
     geolocated_count := geolocated_count s;
     skipped_count := skipped_count s; queues := queues s;
     threads := threads s |}.

Definition set_status_label (v : option string) (s : state) : state :=
  {| running := running s; after_scheduled := after_scheduled s;
     map_widget := map_widget s; canvas_markers := canvas_markers s;
     map_view := map_view s; map_status_label := map_status_label s;
     status_label := v; status_text := status_text s;
     map_markers := map_markers s;
     _grouped_cases_by_location := _grouped_cases_by_location s;
     geocoding_queue := geocoding_queue s;
     geocoding_thread := geocoding_thread s;
     processing_queue := processing_queue s;
     geolocated_count := geolocated_count s;
     skipped_count := skipped_count s; queues := queues s;
     threads := threads s |}.

Definition set_status_text (v : string) (s : state) : state :=
  {| running := running s; after_scheduled := after_scheduled s;
     map_widget := map_widget s; canvas_markers := canvas_markers s;
     map_view := map_view s; map_status_label := map_status_label s;
     status_label := status_label s; status_text := v;
     map_markers := map_markers s;
     _grouped_cases_by_location := _grouped_cases_by_location s;
     geocoding_queue := geocoding_queue s;
     geocoding_thread := geocoding_thread s;
     processing_queue := processing_queue s;
     geolocated_count := geolocated_count s;
     skipped_count := skipped_count s; queues := queues s;
     threads := threads s |}.

Definition set_map_markers (v : gmap location marker) (s : state) : state :=
  {| running := running s; after_scheduled := after_scheduled s;
     map_widget := map_widget s; canvas_markers := canvas_markers s;
     map_view := map_view s; map_status_label := map_status_label s;
     status_label := status_label s; status_text := status_text s;
     map_markers := v;
     _grouped_cases_by_location := _grouped_cases_by_location s;
     geocoding_queue := geocoding_queue s;
     geocoding_thread := geocoding_thread s;
     processing_queue := processing_queue s;
     geolocated_count := geolocated_count s;
     skipped_count := skipped_count s; queues := queues s;
     threads := threads s |}.

Definition set_grouped_cases_by_location (v : gmap location (list case)) (s : state) : state :=
  {| running := running s; after_scheduled := after_scheduled s;
     map_widget := map_widget s; canvas_markers := canvas_markers s;
     map_view := map_view s; map_status_label := map_status_label s;
     status_label := status_label s; status_text := status_text s;
     map_markers := map_markers s; _grouped_cases_by_location := v;
     geocoding_queue := geocoding_queue s;
     geocoding_thread := geocoding_thread s;
     processing_queue := processing_queue s;
     geolocated_count := geolocated_count s;
     skipped_count := skipped_count s; queues := queues s;
     threads := threads s |}.

Definition set_geocoding_queue (v : nat) (s : state) : state :=
  {| running := running s; after_scheduled := after_scheduled s;
     map_widget := map_widget s; canvas_markers := canvas_markers s;
     map_view := map_view s; map_status_label := map_status_label s;
     status_label := status_label s; status_text := status_text s;
     map_markers := map_markers s;
     _grouped_cases_by_location := _grouped_cases_by_location s;
     geocoding_queue := v; geocoding_thread := geocoding_thread s;
     processing_queue := processing_queue s;
     geolocated_count := geolocated_count s;
     skipped_count := skipped_count s; queues := queues s;
     threads := threads s |}.

Definition set_geocoding_thread (v : option nat) (s : state) : state :=
  {| running := running s; after_scheduled := after_scheduled s;
     map_widget := map_widget s; canvas_markers := canvas_markers s;
     map_view := map_view s; map_status_label := map_status_label s;
     status_label := status_label s; status_text := status_text s;
     map_markers := map_markers s;
     _grouped_cases_by_location := _grouped_cases_by_location s;
     geocoding_queue := geocoding_queue s; geocoding_thread := v;
     processing_queue := processing_queue s;
     geolocated_count := geolocated_count s;
     skipped_count := skipped_count s; queues := queues s;
     threads := threads s |}.

Definition set_processing_queue (v : bool) (s : state) : state :=
  {| running := running s; after_scheduled := after_scheduled s;
     map_widget := map_widget s; canvas_markers := canvas_markers s;
     map_view := map_view s; map_status_label := map_status_label s;
     status_label := status_label s; status_text := status_text s;
     map_markers := map_markers s;
     _grouped_cases_by_location := _grouped_cases_by_location s;
     geocoding_queue := geocoding_queue s;
     geocoding_thread := geocoding_thread s; processing_queue := v;
     geolocated_count := geolocated_count s;
     skipped_count := skipped_count s; queues := queues s;
     threads := threads s |}.

Definition set_geolocated_count (v : nat) (s : state) : state :=
  {| running := running s; after_scheduled := after_scheduled s;
     map_widget := map_widget s; canvas_markers := canvas_markers s;
     map_view := map_view s; map_status_label := map_status_label s;
     status_label := status_label s; status_text := status_text s;
     map_markers := map_markers s;
     _grouped_cases_by_location := _grouped_cases_by_location s;
     geocoding_queue := geocoding_queue s;
     geocoding_thread := geocoding_thread s;
     processing_queue := processing_queue s; geolocated_count := v;
     skipped_count := skipped_count s; queues := queues s;
     threads := threads s |}.

Definition set_skipped_count (v : nat) (s : state) : state :=
  {| running := running s; after_scheduled := after_scheduled s;
     map_widget := map_widget s; canvas_markers := canvas_markers s;
     map_view := map_view s; map_status_label := map_status_label s;
     status_label := status_label s; status_text := status_text s;
     map_markers := map_markers s;
     _grouped_cases_by_location := _grouped_cases_by_location s;
     geocoding_queue := geocoding_queue s;
     geocoding_thread := geocoding_thread s;
     processing_queue := processing_queue s;
     geolocated_count := geolocated_count s; skipped_count := v;
     queues := queues s; threads := threads s |}.

Definition set_queues (v : list (list item)) (s : state) : state :=
  {| running := running s; after_scheduled := after_scheduled s;
     map_widget := map_widget s; canvas_markers := canvas_markers s;
     map_view := map_view s; map_status_label := map_status_label s;
     status_label := status_label s; status_text := status_text s;
     map_markers := map_markers s;
     _grouped_cases_by_location := _grouped_cases_by_location s;
     geocoding_queue := geocoding_queue s;
     geocoding_thread := geocoding_thread s;
     processing_queue := processing_queue s;
     geolocated_count := geolocated_count s;
     skipped_count := skipped_count s; queues := v; threads := threads s |}.

Definition set_threads (v : list thread) (s : state) : state :=
  {| running := running s; after_scheduled := after_scheduled s;
     map_widget := map_widget s; canvas_markers := canvas_markers s;
     map_view := map_view s; map_status_label := map_status_label s;
     status_label := status_label s; status_text := status_text s;
     map_markers := map_markers s;
     _grouped_cases_by_location := _grouped_cases_by_location s;
     geocoding_queue := geocoding_queue s;
     geocoding_thread := geocoding_thread s;
     processing_queue := processing_queue s;
     geolocated_count := geolocated_count s;
     skipped_count := skipped_count s; queues := queues s; threads := v |}.

(** The outcome of the Tk calls that sit in a [try] block of their own.
    For the [i]-th item of a drain, in the block of lines 2706 to 2725:
    whether [set_marker] raises, whether [status_label.config] raises
    inside the [update_status] of line 2723, and whether [update_idletasks]
    raises at line 2725. For the finalize step: whether [fit_markers]
    raises. Calls on a widget that exists are otherwise taken to return,
    those of the branch for skipped locations (lines 2734 to 2736)
    included, so the handlers at lines 2738 and 2784 of the source are
    never entered. *)
Record ui_env : Type := {
  set_marker_raises : nat -> bool;
  status_config_raises : nat -> bool;
  update_idletasks_raises : nat -> bool;
  fit_markers_raises : bool
}.

(** What a call of [load_map_markers] finds outside: the rows of
    [case_log] ([[]] when the read fails), the outside world and the
    [geocache] table the thread it starts will meet, the order in which
    [list(unique_locations)] lists the set, which is that of the hash table
    and which [set_order] ranks, and how far the thread gets between its
    [start()] at line 2591 and the drain of line 2594: the number of items
    it has put by then. *)
Record load_env : Type := {
  all_cases : list case;
  thread_env : Worker.env;
  table : gmap string row;
  set_order : location -> nat;
  early_puts : nat
}.

(** *** [update_status] *)

Definition update_status (message : string) (s : state) : state :=
  let s := set_status_text message s in
  match status_label s with
  | Some _ => set_status_label (Some message) s
  | None => s
  end.

(** *** The text of a marker's popup (lines 2684 to 2702) *)

Definition unique_offense_types (cases_at_location : list case)
  : gset string :=
  foldl
    (fun acc c =>
       let o := Py.strip (Py.or_empty (offense_type c)) in
       if Py.truthy o then acc ∪ {[o]} else acc)
    ∅ cases_at_location.

Definition info_text_for_popup (grouped : gmap location (list case))
    (city state : string) : string :=
  let info_text := "City of Offense: " +:+ city +:+ Py.nl in
  let info_text :=
    match default [] (grouped !! (city, state)) with
    | [] => info_text +:+ Py.nl +:+ "No case data found for this location."
    | cases_at_location =>
        match elements (unique_offense_types cases_at_location) with
        | [] =>
            info_text +:+ Py.nl
            +:+ "No specific offense types listed for this city."
        | types =>
            foldl (fun t offense => t +:+ "- " +:+ offense +:+ Py.nl)
              (info_text +:+ Py.nl +:+ "Types of Offense:" +:+ Py.nl)
              (Py.sorted (filter (fun o => Py.truthy o = true) types))
        end
    end in
  Py.strip info_text.

(** *** [_finalize_map_loading] *)

Definition center_on_MS (s : state) : state :=
  set_map_view (centered 32.7 (-89.5) 7) s.

Definition skipped_suffix (s : state) : string :=
  if (0 <? skipped_count s)%nat
  then " (" +:+ Py.str_int (skipped_count s) +:+ " skipped/errored)"
  else "".

Definition _finalize_map_loading (u : ui_env) (s : state) : state :=
  let s :=
    if map_widget s then
      let '(final_map_status, s) :=
        if (0 <? geolocated_count s)%nat then
          match map_to_list (map_markers s) with
          | [] =>
              ("Map status: No geolocated markers to display.",
               center_on_MS s)
          | _ =>
              if fit_markers_raises u then
                ("Map status: Displaying "
                 +:+ Py.str_int (geolocated_count s)
                 +:+ " locations. Could not fit view.", s)
              else
                ("Map status: Displaying "
                 +:+ Py.str_int (geolocated_count s)
                 +:+ " locations with markers.", set_map_view fitted s)
          end
        else ("Map status: No geolocatable cases.", center_on_MS s) in
      let final_map_status := final_map_status +:+ skipped_suffix s in
      update_status "Map markers loaded."
        (set_map_status_label final_map_status s)
    else update_status "Map finalization skipped (widget destroyed)." s in
  match status_label s with
  | Some _ =>
      if Py.startswith (status_text s) "Map markers loaded"
         || Py.startswith (status_text s) "Loading map markers"
         || String.eqb (status_text s) "Initializing application..."
      then update_status "Ready" s
      else s
  | None => s
  end.

(** *** [_process_geocoding_results] *)

Definition loading_status (s : state) : string :=
  "Loading map markers... (" +:+ Py.str_int (geolocated_count s)
  +:+ " locations processed, " +:+ Py.str_int (skipped_count s)
  +:+ " skipped)".

(** The branches for the result tuples (lines 2678 to 2736), entered when
    the map widget exists. [i] is the position of the item in the drain. *)
Definition process_item (u : ui_env) (i : nat) (it : item) (s : state)
  : state :=
  match it with
  | success_cached city state latitude longitude
  | success_geocoded city state latitude longitude
  | success city state latitude longitude =>
      let info :=
        info_text_for_popup (_grouped_cases_by_location s) city state in
      if set_marker_raises u i then
        set_skipped_count (S (skipped_count s)) s
      else
        let m := {| position := (latitude, longitude); data := info |} in
        let s := set_canvas_markers (canvas_markers s ++ [m]) s in
        let s := set_map_markers (<[(city, state) := m]> (map_markers s)) s in
        let s := set_geolocated_count (S (geolocated_count s)) s in
        if status_config_raises u i
           && match status_label s with Some _ => true | None => false end
        then
          set_skipped_count (S (skipped_count s))
            (set_status_text (loading_status s) s)
        else
          let s := update_status (loading_status s) s in
          if running s && update_idletasks_raises u i then
            set_skipped_count (S (skipped_count s)) s
          else s
  | skipped city state reason =>
      let s := set_skipped_count (S (skipped_count s)) s in
      update_status (loading_status s) s
  | finished => s
  end.

(** The [while True] loop over the items that [get_nowait] delivers;
    returns the state and the items left in the queue. *)
Fixpoint drain (u : ui_env) (i : nat) (items : list item) (s : state)
  : state * list item :=
  match items with
  | [] => (s, [])
  | it :: rest =>
      let s :=
        match it with
        | finished =>
            _finalize_map_loading u
              (set_geocoding_thread None (set_processing_queue false s))
        | _ => s
        end in
      if negb (map_widget s) then (set_processing_queue false s, rest)
      else drain u (S i) rest (process_item u i it s)
  end.

Definition queue_contents (s : state) : list item :=
  default [] (queues s !! geocoding_queue s).

Definition _process_geocoding_results (u : ui_env) (s : state) : state :=
  let '(s', rest) := drain u 0 (queue_contents s) s in
  let s' := set_queues (<[geocoding_queue s := rest]> (queues s')) s' in
  if processing_queue s' && running s' then
    if map_widget s' then set_after_scheduled (S (after_scheduled s')) s'
    else set_processing_queue false s'
  else s'.

(** *** [load_map_markers] *)

(** The loop of lines 2560 to 2569: the set of locations and the cases
    grouped by location. *)
Definition group_case (acc : gset location * gmap location (list case))
    (c : case) : gset location * gmap location (list case) :=
  let city := Py.strip (Py.or_empty (city_of_offense c)) in
  let state := Py.strip (Py.or_empty (state_of_offense c)) in
  if Py.truthy city && Py.truthy state then
    let location_key := (city, state) in
    ({[location_key]} ∪ acc.1,
     <[location_key := default [] (acc.2 !! location_key) ++ [c]]> acc.2)
  else acc.

Definition group_cases (cases : list case)
  : gset location * gmap location (list case) :=
  foldl group_case (∅, ∅) cases.

Definition unique_locations (cases : list case) : gset location :=
  (group_cases cases).1.

(** The members of the set as a list, each once, in the order in which
    [elements] enumerates them; the order in which the program's
    [list(unique_locations)] gives them is that of [list_of_set] below. *)
Definition list_of_unique_locations (cases : list case) : list location :=
  elements (unique_locations cases).

(** [list(unique_locations)] lists the set in the order of its hash
    table: the members, by their rank. *)
Fixpoint insert_by (rank : location -> nat) (x : location)
    (l : list location) : list location :=
  match l with
  | [] => [x]
  | y :: r =>
      if (rank x <=? rank y)%nat then x :: y :: r
      else y :: insert_by rank x r
  end.

Definition list_of_set (rank : location -> nat) (X : gset location)
  : list location :=
  foldr (insert_by rank) [] (elements X).

(** [self.geocoding_thread and self.geocoding_thread.is_alive()] *)
Definition thread_is_alive (s : state) : bool :=
  match geocoding_thread s with
  | Some t =>
      match threads s !! t with
      | Some th => th_alive th
      | None => false
      end
  | None => false
  end.

(** The thread object that [threading.Thread(target=
    self._geocode_locations_in_thread, args=(locations, queue))] makes:
    it will put, in order, what the worker puts. *)
Definition new_thread (le : load_env) (locations : list location) (q : nat)
  : thread :=
  {| th_queue := q;
     th_pending := thread_items (thread_env le) locations (table le);
     th_alive := true |}.

(** The thread [t] performs its next [result_queue.put]. *)
Definition thread_put (t : nat) (s : state) : state :=
  match threads s !! t with
  | Some th =>
      match th_alive th, th_pending th with
      | true, it :: rest =>
          let th' :=
            {| th_queue := th_queue th; th_pending := rest;
               th_alive := true |} in
          set_threads (<[t := th']> (threads s))
            (set_queues (alter (fun q => q ++ [it]) (th_queue th) (queues s))
               s)
      | _, _ => s
      end
  | None => s
  end.

Definition load_map_markers (u : ui_env) (le : load_env) (s : state)
  : state :=
  if negb (map_widget s) then update_status "Map widget not available." s
  else if thread_is_alive s then
    update_status "Map loading already in progress." s
  else
    let s :=
      update_status "Loading map markers (Geocoding in progress)..." s in
    let s := set_canvas_markers [] s in
    let s := set_map_markers ∅ s in
    let s := set_geolocated_count 0 s in
    let s := set_skipped_count 0 s in
    let s := set_grouped_cases_by_location ∅ s in
    match all_cases le with
    | [] => center_on_MS (update_status "Map status: No cases to geocode." s)
    | _ =>
        let s :=
          set_grouped_cases_by_location (group_cases (all_cases le)).2 s in
        match
          list_of_set (set_order le) (unique_locations (all_cases le))
        with
        | [] =>
            center_on_MS
              (update_status
                 "Map status: No geolocatable cases (missing city/state)." s)
        | locations =>
            let q := length (queues s) in
            let s := set_queues (queues s ++ [[]]) s in
            let s := set_geocoding_queue q s in
            let s := set_processing_queue true s in
            let t := length (threads s) in
            let s := set_threads (threads s ++ [new_thread le locations q]) s in
            let s := set_geocoding_thread (Some t) s in
            (* the thread runs from its [start()] on *)
            let s := Nat.iter (early_puts le) (thread_put t) s in
            _process_geocoding_results u s
        end
    end.

(** *** [on_closing] *)

Definition on_closing (s : state) : state :=
  let s := set_running false s in
  let s := set_after_scheduled 0 s in
  let s := set_map_widget false s in
  set_status_label None s.

(** *** The threads *)

(** The thread [t], having put everything, returns from its target. *)
Definition thread_exit (t : nat) (s : state) : state :=
  match threads s !! t with
  | Some th =>
      match th_pending th with
      | [] =>
          set_threads
            (<[t := {| th_queue := th_queue th; th_pending := [];
                       th_alive := false |}]> (threads s)) s
      | _ :: _ => s
      end
  | None => s
  end.

(** The application object in [__init__], once the widgets and the status
    bar exist; what [refresh_data_view] does before the first
    [load_map_markers] is a [step_other] below. *)
Definition initial : state :=
  {| running := true; after_scheduled := 0; map_widget := true;
     canvas_markers := []; map_view := centered 32.7 (-89.5) 7;
     map_status_label := "Map status: Not Loaded";
     status_label := Some "Initializing application..."%string;
     status_text := "Initializing application...";
     map_markers := ∅; _grouped_cases_by_location := ∅;
     geocoding_queue := 0; geocoding_thread := None;
     processing_queue := false; geolocated_count := 0; skipped_count := 0;
     queues := [[]]; threads := [] |}.

(** One step of the whole program: a callback of the Tk event loop, or a
    step of one thread. [step_other] stands for every other callback of
    the application: whatever it does to the attributes, none assigns
    [geocoding_queue] or [geocoding_thread] (lines 547, 548, 2583, 2589 and
    2667 are their only assignments) or touches the queue and thread
    objects. *)
Inductive step : state -> state -> Prop :=
| step_load (u : ui_env) (le : load_env) (s : state) :
    step s (load_map_markers u le s)
| step_timer (u : ui_env) (s : state) :
    (0 < after_scheduled s)%nat ->
    step s
      (_process_geocoding_results u
         (set_after_scheduled (pred (after_scheduled s)) s))
| step_close (s : state) :
    step s (on_closing s)
| step_put (t : nat) (s : state) :
    step s (thread_put t s)
| step_exit (t : nat) (s : state) :
    step s (thread_exit t s)
| step_other (s s' : state) :
    threads s' = threads s ->
    queues s' = queues s ->
    geocoding_queue s' = geocoding_queue s ->
    geocoding_thread s' = geocoding_thread s ->
    step s s'.

Inductive reachable : state -> Prop :=
| reachable_initial : reachable initial
| reachable_step (s s' : state) : reachable s -> step s s' -> reachable s'.

(** The objects and attributes that the handling of an item, the finalize
    step and the status bar leave alone. *)
Definition same_objects (s s' : state) : Prop :=
  running s' = running s
  /\ after_scheduled s' = after_scheduled s
  /\ map_widget s' = map_widget s
  /\ _grouped_cases_by_location s' = _grouped_cases_by_location s
  /\ geocoding_queue s' = geocoding_queue s
  /\ queues s' = queues s
  /\ threads s' = threads s.

Definition is_finished (it : item) : bool :=
  match it with finished => true | _ => false end.

(** The number of result tuples among the items: all but [finished]. *)
Definition count_results (items : list item) : nat :=
  length (List.filter (fun it => negb (is_finished it)) items).

(** The number of result tuples a drain started in [s] handles: all those
    in the queue when the map widget exists, none otherwise. *)
Definition results_handled (s : state) : nat :=
  if map_widget s then count_results (queue_contents s) else 0.

(** What may happen after a load, until the next load. *)
Inductive cycle_step : Type :=
| do_put (t : nat)
| do_exit (t : nat)
| do_timer (u : ui_env)
| do_close.

Definition run_step (c : cycle_step) (s : state) : state :=
  match c with
  | do_put t => thread_put t s
  | do_exit t => thread_exit t s
  | do_timer u =>
      _process_geocoding_results u
        (set_after_scheduled (pred (after_scheduled s)) s)
  | do_close => on_closing s
  end.

(** The state after the steps, and the number of result tuples its drains
    have handled. *)
Fixpoint run_cycle (steps : list cycle_step) (s : state) : state * nat :=
  match steps with
  | [] => (s, 0)
  | c :: rest =>
      let n := match c with do_timer _ => results_handled s | _ => 0 end in
      let '(s', m) := run_cycle rest (run_step c s) in
      (s', n + m)
  end.

(** A thread whose batch is under way: alive, and [finished] not put yet. *)
Definition batch_active (th : thread) : bool :=
  th_alive th && negb (bool_decide (th_pending th = [])).

(** The number of threads whose batch is under way. *)
Definition active_batches (s : state) : nat :=
  length (List.filter batch_active (threads s)).

(** The number of [finished] items in a queue. *)
Definition count_finished (items : list item) : nat :=
  length (List.filter is_finished items).

(** What holds of the threads, the queues and the two references of the
    application in every state the program reaches: the references are
    valid; no two threads share a queue; a thread that still has something
    to put is alive, is the thread the application refers to, writes to the
    queue the application reads, has [finished] as its last item to put and
    only there, and its queue holds no [finished] yet; no queue ever holds
    more than one [finished]. *)
Definition consistent (ths : list thread) (qs : list (list item)) (gq : nat)
    (gt : option nat) : Prop :=
  gq < length qs
  /\ (forall t th, ths !! t = Some th -> th_queue th < length qs)
  /\ (forall t1 t2 th1 th2,
        ths !! t1 = Some th1 -> ths !! t2 = Some th2 ->
        th_queue th1 = th_queue th2 -> t1 = t2)
  /\ (forall t th,
        ths !! t = Some th -> th_pending th <> [] ->
        th_alive th = true
        /\ gt = Some t
        /\ gq = th_queue th
        /\ (exists evs, th_pending th = evs ++ [finished] /\ finished ∉ evs)
        /\ (forall items, qs !! th_queue th = Some items -> finished ∉ items))
  /\ (forall q items, qs !! q = Some items -> count_finished items <= 1).

Definition invariant (s : state) : Prop :=
  consistent (threads s) (queues s) (geocoding_queue s) (geocoding_thread s).

End App.


(** ** Concrete situations used to exercise the definitions *)

Module Scenarios.
Import Worker App.

(** A world with an empty [geocache] table and nothing done yet. *)
Definition fresh_world : world := {| geocache := ∅; history := [] |}.

(** An outside world in which nothing stops the thread, sqlite3 reads fail
    when [read_fails] says so, and Nominatim locates every query at
    [(lat, lon)]. *)
Definition locating_env (read_fails : nat -> bool) (lat lon : float) : env :=
  {| root_running := fun _ => true;
     select_error :=
       fun i => if read_fails i then Some "disk I/O error"%string else None;
     replace_error := fun _ => None;
     now := fun _ => "2025-01-01 00:00:00"%string;
     geocode := fun _ _ => Located lat lon |}.

(** As [locating_env], but [root._running] is false from the check of
    iteration [k] on. *)
Definition stopping_env (k : nat) (lat lon : float) : env :=
  {| root_running := fun i => i <? k;
     select_error := fun _ => None;
     replace_error := fun _ => None;
     now := fun _ => "2025-01-01 00:00:00"%string;
     geocode := fun _ _ => Located lat lon |}.

(** Nominatim answers the request of iteration [i] with [reply i]. *)
Definition replying_env (reply : nat -> geocode_reply) : env :=
  {| root_running := fun _ => true;
     select_error := fun _ => None;
     replace_error := fun _ => None;
     now := fun _ => "2025-01-01 00:00:00"%string;
     geocode := fun i _ => reply i |}.

(** Nominatim locates every query, and every write to the table fails. *)
Definition write_failing_env (lat lon : float) : env :=
  {| root_running := fun _ => true;
     select_error := fun _ => None;
     replace_error := fun _ => Some "database is locked"%string;
     now := fun _ => "2025-01-01 00:00:00"%string;
     geocode := fun _ _ => Located lat lon |}.

(** Nominatim locates every query except that of iteration 1, which times
    out. *)
Definition second_times_out (i : nat) : geocode_reply :=
  match i with
  | 1 => Fails (GeocoderTimedOut "Service timed out")
  | _ => Located 1 2
  end.

Definition five_locations : list location :=
  [("Jackson", "MS"); ("Biloxi", "MS"); ("Tupelo", "MS"); ("Oxford", "MS");
   ("Natchez", "MS")]%string.

(** The three cases of the specification's scenario. *)
Definition jackson_cases : list case :=
  [ {| city_of_offense := Some "Jackson"%string;
       state_of_offense := Some "MS"%string;
       offense_type := Some "Fraud"%string |};
    {| city_of_offense := Some "Jackson"%string;
       state_of_offense := Some "MS"%string;
       offense_type := Some "Theft"%string |};
    {| city_of_offense := Some ""%string;
       state_of_offense := Some "MS"%string;
       offense_type := Some "Fraud"%string |} ].

(** A map widget whose drawing calls all succeed. *)
Definition drawing_ui : ui_env :=
  {| set_marker_raises := fun _ => false;
     status_config_raises := fun _ => false;
     update_idletasks_raises := fun _ => false;
     fit_markers_raises := false |}.

(** A map widget whose [set_marker] raises for the item at position [i] of
    a drain. *)
Definition failing_ui (i : nat) : ui_env :=
  {| set_marker_raises := fun k => k =? i;
     status_config_raises := fun _ => false;
     update_idletasks_raises := fun _ => false;
     fit_markers_raises := false |}.


(** What a load finds: the given cases, an empty [geocache] table, and a
    Nominatim that locates every query at [(lat, lon)]; the thread it
    starts has put nothing when the load drains the queue. *)
Definition locating_load (cases : list case) (lat lon : float) : load_env :=
  {| all_cases := cases; thread_env := locating_env (fun _ => false) lat lon;
     table := ∅; set_order := fun _ => 0; early_puts := 0 |}.


(** The application after a load of [jackson_cases], after its thread has
    put its two items, and after the timer callback has drained them. *)
Definition jackson_loaded : state :=
  load_map_markers drawing_ui (locating_load jackson_cases 32.25 (-90.25))
    initial.

Definition jackson_drained : state :=
  let s := thread_put 0 (thread_put 0 jackson_loaded) in
  _process_geocoding_results drawing_ui
    (set_after_scheduled (pred (after_scheduled s)) s).

(** The application after a load of one case at ("Nowhereville", "ZZ"),
    for which Nominatim has no result, and after its thread has put its two
    items. *)
Definition nowhere_put : state :=
  thread_put 0
    (thread_put 0
       (load_map_markers drawing_ui
          {| all_cases :=
               [ {| city_of_offense := Some "Nowhereville"%string;
                    state_of_offense := Some "ZZ"%string;
                    offense_type := None |} ];
             thread_env := replying_env (fun _ => NoMatch);
             table := ∅; set_order := fun _ => 0; early_puts := 0 |}
          initial)).


(** The sentence of the specification on an early stop, as it is worded:
    when the stop flag is seen after [k] of the locations, the thread puts
    at most the items of those [k] locations, and no [finished]. *)
Definition stop_without_finished (e : env) (locations : list location)
    (k : nat) (g : gmap string row) : Prop :=
  stops_at e k -> k < length locations ->
  length (thread_items e locations g) <= k
  /\ finished ∉ thread_items e locations g.

(** The sentence of the specification on the write-through, as it is
    worded: a location geocoded in one cycle is a cache hit in the next
    full cycle over the same locations. *)
Definition geocoded_then_cached (e1 e2 : env) (locations : list location)
    (g : gmap string row) : Prop :=
  (forall i, root_running e2 i = true) ->
  forall (i : nat) (city state : string) (lat lon : float),
  thread_items e1 locations g !! i
  = Some (success_geocoded city state lat lon) ->
  exists lat' lon',
    thread_items e2 locations (thread_geocache e1 locations g) !! i
    = Some (success_cached city state lat' lon').


End Scenarios.

(** ** Reading the application state *)

Module Reading.
Import Worker App.


(** The location a case counts for on the map: its trimmed city and state
    (lines 2561 and 2562), and whether both are non-empty (line 2563). *)
Definition location_of (c : case) : location :=
  (Py.strip (Py.or_empty (city_of_offense c)),
   Py.strip (Py.or_empty (state_of_offense c))).

Definition groupable (c : case) : bool :=
  Py.truthy (location_of c).1 && Py.truthy (location_of c).2.

(** The cases of a location, in the order of the list. *)
Definition cases_at (l : location) (cases : list case) : list case :=
  List.filter
    (fun c => groupable c && bool_decide (location_of c = l)) cases.

(** The entry of the grouping for a list of cases: none when the list is
    empty. *)
Definition group_entry (cs : list case) : option (list case) :=
  match cs with [] => None | _ :: _ => Some cs end.

(** One of the three success tuples. *)
Definition is_success (it : item) : bool :=
  match it with
  | success_cached _ _ _ _ | success_geocoded _ _ _ _ | success _ _ _ _ =>
      true
  | skipped _ _ _ | finished => false
  end.

(** The status update of lines 2723 to 2725 raises for the item at
    position [i] of a drain: the status label exists and its [config]
    raises, or the application runs and [update_idletasks] raises. *)
Definition status_update_fails (u : ui_env) (i : nat) (s : state) : bool :=
  (status_config_raises u i
   && match status_label s with Some _ => true | None => false end)
  || (running s && update_idletasks_raises u i).

(** The result is counted by both counters: its marker is placed, and
    the status update that follows in the same [try] block raises. *)
Definition counted_twice (u : ui_env) (i : nat) (it : item) (s : state)
  : bool :=
  is_success it && negb (set_marker_raises u i) && status_update_fails u i s.

(** No status update of a drain raises. *)
Definition status_updates_return (u : ui_env) : Prop :=
  forall i,
    status_config_raises u i = false /\ update_idletasks_raises u i = false.


(** The items the thread of a load has put when the load drains the
    queue, and the number of result tuples among them. *)
Definition load_locations (le : load_env) : list location :=
  list_of_set (set_order le) (unique_locations (all_cases le)).

Definition early_items (le : load_env) : list item :=
  take (early_puts le)
    (thread_items (thread_env le) (load_locations le) (table le)).


(** The markers and the counter agree: as many markers are drawn as
    [geolocated_count] says, every marker of [map_markers] is drawn, and
    [map_markers] holds at most that many. *)
Definition markers_agree (s : state) : Prop :=
  length (canvas_markers s) = geolocated_count s
  /\ (forall l m, map_markers s !! l = Some m -> m ∈ canvas_markers s)
  /\ size (map_markers s) <= geolocated_count s.

End Reading.

(** ** Reading the effects of a run *)

Module Trace.
Import Worker.

(** The throttle of lines 2645 and 2646, read off a history: each call of
    the geocoder is followed by one [put] and then by a sleep of at least
    1.1 seconds, and the thread sleeps nowhere else. *)
Fixpoint throttled (h : list effect) : bool :=
  match h with
  | [] => true
  | queue_put _ :: r => throttled r
  | nominatim_geocode _ _ :: r =>
      match r with
      | queue_put _ :: time_sleep d :: r' =>
          Qle_bool (11 # 10) d && throttled r'
      | _ => false
      end
  | time_sleep _ :: _ => false
  end.

(** The requests made to Nominatim, in order: query and timeout. *)
Fixpoint geocoder_calls (h : list effect) : list (string * nat) :=
  match h with
  | [] => []
  | nominatim_geocode q t :: r => (q, t) :: geocoder_calls r
  | _ :: r => geocoder_calls r
  end.

(** The request the loop makes for a location, when it makes one. *)
Definition request_of (l : location) : string * nat :=
  (query_string l.1 l.2, 10).

(** The key of a location, as line 2605 builds it. *)
Definition key_of (l : location) : string := cache_key l.1 l.2.

(** The item a location found in the table [g] is answered with. *)
Definition cached_item (g : gmap string row) (l : location) (it : item)
  : Prop :=
  exists r,
    g !! cache_key l.1 l.2 = Some r
    /\ it = success_cached l.1 l.2 (latitude r) (longitude r).

End Trace.

(** ** Properties of the worker *)

Module WorkerFacts.
Import Worker.

Lemma queue_of_app (h1 h2 : list effect) :
  queue_of (h1 ++ h2) = queue_of h1 ++ queue_of h2.
Proof.
  induction h1 as [|[] h1 IH]; simpl; rewrite ?IH; reflexivity.
Qed.

Lemma get_cached_location_db_eq (e : env) (index : nat) (key : string)
    (w : world) :
  get_cached_location_db (select_error e index) key w
  = (Return (cached_coords e index key w), w).
Proof.
  unfold get_cached_location_db, cached_coords, try_except, bind,
    execute_select, ret.
  destruct (select_error e index); [reflexivity|].
  destruct (geocache w !! key); reflexivity.
Qed.

Lemma loop_body_stopped (e : env) (index : nat) (l : location) (w : world) :
  root_running e index = false ->
  loop_body e index l w = (Return break_loop, w).
Proof.
  intros H. destruct l as [city state]. unfold loop_body.
  rewrite H. reflexivity.
Qed.

Lemma loop_body_hit (e : env) (index : nat) (city state : string)
    (lat lon : float) (w : world) :
  root_running e index = true ->
  cached_coords e index (cache_key city state) w = Some (lat, lon) ->
  loop_body e index (city, state) w
  = (Return next_iteration,
     record_effect (queue_put (success_cached city state lat lon)) w).
Proof.
  intros Hrun Hhit. unfold loop_body. rewrite Hrun. simpl.
  unfold bind at 1. rewrite get_cached_location_db_eq, Hhit.
  reflexivity.
Qed.

Lemma loop_body_miss (e : env) (index : nat) (city state : string)
    (w : world) :
  root_running e index = true ->
  cached_coords e index (cache_key city state) w = None ->
  loop_body e index (city, state) w
  = (Return next_iteration,
     {| geocache := miss_geocache e index city state (geocache w);
        history := history w
                   ++ [nominatim_geocode (query_string city state) 10;
                       queue_put (miss_item e index city state);
                       time_sleep (11 # 10)] |}).
Proof.
  intros Hrun Hmiss. unfold loop_body. rewrite Hrun. simpl.
  unfold bind at 1. rewrite get_cached_location_db_eq, Hmiss.
  unfold miss_geocache, miss_item, bind, try_except, call_geocode,
    add_cached_location_db, execute_replace, try_except, bind, put, sleep,
    ret, record_effect, set_geocache.
  destruct (geocode e index (query_string city state)) as [lat lon| |[]];
    simpl; try destruct (replace_error e index); simpl;
    rewrite <- ?app_assoc; reflexivity.
Qed.

Lemma miss_item_for (e : env) (index : nat) (city state : string) :
  item_for (city, state) (miss_item e index city state).
Proof.
  unfold miss_item.
  destruct (geocode e index (query_string city state)) as [? ?| |[]];
    reflexivity.
Qed.

Lemma miss_geocache_dom (e : env) (index : nat) (city state : string)
    (g : gmap string row) :
  dom g ⊆ dom (miss_geocache e index city state g).
Proof.
  unfold miss_geocache.
  destruct (geocode e index (query_string city state)) as [? ?| |?];
    try destruct (replace_error e index); set_solver.
Qed.

(** One iteration, whatever the outside does: it returns normally; when the
    stop flag is seen it does nothing, and otherwise it puts exactly one
    item, an item of its location, and no row leaves the table. *)
Lemma loop_body_cases (e : env) (index : nat) (city state : string)
    (w : world) :
  (root_running e index = false
   /\ loop_body e index (city, state) w = (Return break_loop, w))
  \/ (root_running e index = true
      /\ exists it w',
          loop_body e index (city, state) w = (Return next_iteration, w')
          /\ result_queue w' = result_queue w ++ [it]
          /\ item_for (city, state) it
          /\ dom (geocache w) ⊆ dom (geocache w')).
Proof.
  destruct (root_running e index) eqn:Hrun.
  - right. split; [reflexivity|].
    destruct (cached_coords e index (cache_key city state) w)
      as [[lat lon]|] eqn:Hc.
    + eexists _, _. split; [apply loop_body_hit; eassumption|].
      unfold result_queue. simpl. rewrite queue_of_app. simpl.
      repeat split. reflexivity.
    + eexists _, _. split; [apply loop_body_miss; assumption|].
      unfold result_queue. simpl. rewrite queue_of_app. simpl.
      repeat split; [apply miss_item_for | apply miss_geocache_dom].
  - left. split; [reflexivity|]. apply loop_body_stopped. assumption.
Qed.

Lemma for_each_cons (e : env) (index : nat) (l : location)
    (rest : list location) (w : world) :
  for_each e index (l :: rest) w
  = match loop_body e index l w with
    | (Return next_iteration, w') => for_each e (S index) rest w'
    | (Return break_loop, w') => (Return tt, w')
    | (Raise x, w') => (Raise x, w')
    end.
Proof.
  simpl. unfold bind.
  destruct (loop_body e index l w) as [[[]|] ?]; reflexivity.
Qed.

(** The loop: it returns normally, and has put one item for each of the
    locations it processed, in their order. *)
Lemma for_each_spec (e : env) (locations : list location) :
  forall (index : nat) (w : world),
  exists evs w',
    for_each e index locations w = (Return tt, w')
    /\ result_queue w' = result_queue w ++ evs
    /\ Forall2 item_for (take (processed e index locations) locations) evs
    /\ dom (geocache w) ⊆ dom (geocache w').
Proof.
  induction locations as [|[city state] rest IH]; intros index w.
  - exists [], w. simpl. rewrite app_nil_r. split_and!; [done..|constructor|done].
  - rewrite for_each_cons. cbn [processed].
    destruct (loop_body_cases e index city state w)
      as [[Hrun Hb]|[Hrun (it & w1 & Hb & Hq & Hit & Hd)]];
      rewrite Hb, Hrun.
    + exists [], w. rewrite app_nil_r. split_and!; [done..|constructor|done].
    + destruct (IH (S index) w1) as (evs & w' & Hf & Hq' & Hall & Hd').
      exists (it :: evs), w'. rewrite Hf, Hq', Hq, <- app_assoc. simpl.
      split_and!; [done..|constructor; assumption|set_solver].
Qed.

Lemma processed_all (e : env) (locations : list location) :
  forall index : nat,
  (forall i, i < length locations -> root_running e (index + i) = true) ->
  processed e index locations = length locations.
Proof.
  induction locations as [|l rest IH]; intros index H; simpl; [reflexivity|].
  rewrite <- (Nat.add_0_r index) at 1. rewrite (H 0) by (simpl; lia).
  f_equal. apply IH. intros i Hi.
  replace (S index + i) with (index + S i) by lia. apply H. simpl. lia.
Qed.

Lemma processed_stop (e : env) (locations : list location) :
  forall index k : nat,
  (forall i, i < k -> root_running e (index + i) = true) ->
  root_running e (index + k) = false ->
  k < length locations ->
  processed e index locations = k.
Proof.
  induction locations as [|l rest IH]; intros index k Hrun Hstop Hk;
    simpl in *; [lia|].
  destruct k as [|k].
  - rewrite Nat.add_0_r in Hstop. rewrite Hstop. reflexivity.
  - rewrite <- (Nat.add_0_r index) at 1. rewrite (Hrun 0) by lia.
    f_equal. apply IH; [| |lia].
    + intros i Hi. replace (S index + i) with (index + S i) by lia.
      apply Hrun. lia.
    + replace (S index + k) with (index + S k) by lia. assumption.
Qed.

(** The whole thread function. *)
Lemma thread_spec (e : env) (locations : list location) (w : world) :
  exists evs w',
    _geocode_locations_in_thread e locations w = (Return tt, w')
    /\ result_queue w' = result_queue w ++ evs ++ [finished]
    /\ Forall2 item_for (take (processed e 0 locations) locations) evs
    /\ dom (geocache w) ⊆ dom (geocache w').
Proof.
  destruct (for_each_spec e locations 0 w) as (evs & w1 & Hf & Hq & Hall & Hd).
  exists evs, (record_effect (queue_put finished) w1).
  unfold _geocode_locations_in_thread, bind. rewrite Hf. unfold put.
  repeat split; [|assumption..].
  unfold result_queue in *. simpl. rewrite queue_of_app, Hq, <- app_assoc.
  reflexivity.
Qed.

Lemma item_for_not_finished (l : list location) (evs : list item) :
  Forall2 item_for l evs -> finished ∉ evs.
Proof.
  induction 1 as [|x y l evs Hxy _ IH]; [apply not_elem_of_nil|].
  apply not_elem_of_cons. split; [|assumption].
  intros <-. exact Hxy.
Qed.

(** While the stop flag stays clear over a prefix of the list, the loop over
    the whole list is the loop over the prefix followed by the loop over the
    rest, which starts in the world the prefix leaves. *)
Lemma for_each_app (e : env) (pre : list location) :
  forall (index : nat) (post : list location) (w : world),
  (forall i, i < length pre -> root_running e (index + i) = true) ->
  exists evs w1,
    for_each e index pre w = (Return tt, w1)
    /\ result_queue w1 = result_queue w ++ evs
    /\ Forall2 item_for pre evs
    /\ dom (geocache w) ⊆ dom (geocache w1)
    /\ for_each e index (pre ++ post) w
       = for_each e (index + length pre) post w1.
Proof.
  induction pre as [|[city state] pre IH]; intros index post w Hrun.
  - exists [], w. simpl. rewrite app_nil_r, Nat.add_0_r.
    split_and!; [done..|constructor|done|done].
  - simpl app. rewrite !for_each_cons.
    destruct (loop_body_cases e index city state w)
      as [[Hstop _]|[_ (it & w0 & Hb & Hq & Hit & Hd)]].
    + rewrite <- (Nat.add_0_r index), (Hrun 0) in Hstop by (simpl; lia).
      discriminate.
    + rewrite Hb.
      destruct (IH (S index) post w0) as (evs & w1 & Hf & Hq' & Hall & Hd' & Happ).
      { intros i Hi. replace (S index + i) with (index + S i) by lia.
        apply Hrun. simpl. lia. }
      exists (it :: evs), w1. rewrite Hf, Hq', Hq, <- app_assoc, Happ.
      simpl length. replace (index + S (length pre)) with (S index + length pre)
        by lia.
      split_and!; [done..|constructor; assumption|set_solver|done].
Qed.

(** The iteration behind the [i]-th item a run of the loop has put. *)
Lemma for_each_item (e : env) (locations : list location) :
  forall (index : nat) (w w' : world) (evs : list item) (i : nat) (it : item),
  for_each e index locations w = (Return tt, w') ->
  result_queue w' = result_queue w ++ evs ->
  evs !! i = Some it ->
  exists l w1 w2,
    locations !! i = Some l
    /\ root_running e (index + i) = true
    /\ loop_body e (index + i) l w1 = (Return next_iteration, w2)
    /\ result_queue w2 = result_queue w1 ++ [it]
    /\ dom (geocache w2) ⊆ dom (geocache w').
Proof.
  induction locations as [|[city state] rest IH];
    intros index w w' evs i it Hf Hq Hi.
  - simpl in Hf. injection Hf as <-.
    rewrite <- (app_nil_r (result_queue w)) in Hq at 1.
    apply app_inv_head in Hq. subst evs. discriminate.
  - rewrite for_each_cons in Hf.
    destruct (loop_body_cases e index city state w)
      as [[Hstop Hb]|[Hrun (it0 & w0 & Hb & Hq0 & Hit & Hd)]];
      rewrite Hb in Hf.
    + injection Hf as <-.
      rewrite <- (app_nil_r (result_queue w)) in Hq at 1.
      apply app_inv_head in Hq. subst evs. discriminate.
    + destruct (for_each_spec e rest (S index) w0)
        as (evs' & w'' & Hf' & Hq' & _ & Hd').
      rewrite Hf' in Hf. injection Hf as <-.
      rewrite Hq', Hq0, <- app_assoc in Hq. apply app_inv_head in Hq.
      subst evs. destruct i as [|i]; simpl in Hi.
      * injection Hi as <-. exists (city, state), w, w0.
        rewrite Nat.add_0_r. split_and!; done.
      * destruct (IH (S index) w0 w'' evs' i it Hf' Hq' Hi)
          as (l & w1 & w2 & Hl & Hr & Hb' & Hq2 & Hd2).
        exists l, w1, w2.
        replace (index + S i) with (S index + i) by lia.
        split_and!; done.
Qed.

(** An iteration that puts [success_geocoded], when its write to the table
    does not fail, leaves the coordinates in the table under the key of its
    location. *)
Lemma loop_body_geocoded (e : env) (index : nat) (l : location)
    (city state : string) (lat lon : float) (w1 w2 : world) (f : flow) :
  root_running e index = true ->
  loop_body e index l w1 = (Return f, w2) ->
  result_queue w2 = result_queue w1 ++ [success_geocoded city state lat lon] ->
  replace_error e index = None ->
  l = (city, state)
  /\ geocache w2 !! cache_key city state
     = Some {| latitude := lat; longitude := lon;
               last_accessed := now e index |}.
Proof.
  intros Hrun Hb Hq Hrep. destruct l as [c s].
  destruct (cached_coords e index (cache_key c s) w1) as [[la lo]|] eqn:Hc.
  - rewrite (loop_body_hit _ _ _ _ _ _ _ Hrun Hc) in Hb. injection Hb as _ <-.
    unfold result_queue in Hq. simpl in Hq. rewrite queue_of_app in Hq.
    apply app_inv_head in Hq. discriminate.
  - rewrite (loop_body_miss _ _ _ _ _ Hrun Hc) in Hb. injection Hb as _ <-.
    unfold result_queue in Hq. simpl in Hq. rewrite queue_of_app in Hq.
    apply app_inv_head in Hq. simpl in Hq. injection Hq as Hq.
    unfold miss_item in Hq. simpl. unfold miss_geocache.
    destruct (geocode e index (query_string c s)) as [? ?| |[]];
      try discriminate.
    injection Hq as -> -> -> ->. rewrite Hrep. split; [reflexivity|].
    apply lookup_insert_eq.
Qed.

(** A location whose key is in the table, and whose lookup does not fail,
    is answered from the table. *)
Lemma for_each_hit (e : env) (city state : string)
    (locations : list location) :
  forall (index j : nat) (w : world),
  locations !! j = Some (city, state) ->
  (forall k, k <= j -> root_running e (index + k) = true) ->
  select_error e (index + j) = None ->
  cache_key city state ∈ dom (geocache w) ->
  exists lat lon evs w',
    for_each e index locations w = (Return tt, w')
    /\ result_queue w' = result_queue w ++ evs
    /\ evs !! j = Some (success_cached city state lat lon).
Proof.
  induction locations as [|[c s] rest IH]; intros index j w Hl Hrun Hsel Hin;
    [discriminate|].
  rewrite for_each_cons. destruct j as [|j]; simpl in Hl.
  - injection Hl as -> ->. rewrite Nat.add_0_r in Hsel.
    apply elem_of_dom in Hin as [r Hr].
    assert (Hc : cached_coords e index (cache_key city state) w
                 = Some (latitude r, longitude r)).
    { unfold cached_coords. rewrite Hsel, Hr. reflexivity. }
    rewrite (loop_body_hit e index city state (latitude r) (longitude r) w);
      [| |exact Hc].
    2:{ rewrite <- (Nat.add_0_r index). apply Hrun. lia. }
    destruct (for_each_spec e rest (S index)
                (record_effect
                   (queue_put
                      (success_cached city state (latitude r) (longitude r)))
                   w))
      as (evs & w' & Hf & Hq & _ & _).
    exists (latitude r), (longitude r),
      (success_cached city state (latitude r) (longitude r) :: evs), w'.
    rewrite Hf, Hq. unfold result_queue. simpl. rewrite queue_of_app.
    simpl. rewrite <- app_assoc. split_and!; done.
  - destruct (loop_body_cases e index c s w)
      as [[Hstop _]|[_ (it & w0 & Hb & Hq0 & Hit & Hd)]].
    + rewrite <- (Nat.add_0_r index), (Hrun 0) in Hstop by lia. discriminate.
    + rewrite Hb.
      destruct (IH (S index) j w0 Hl) as (lat & lon & evs & w' & Hf & Hq & Hj).
      { intros k Hk. replace (S index + k) with (index + S k) by lia.
        apply Hrun. lia. }
      { replace (S index + j) with (index + S j) by lia. assumption. }
      { set_solver. }
      exists lat, lon, (it :: evs), w'.
      rewrite Hf, Hq, Hq0, <- app_assoc. split_and!; done.
Qed.

Lemma thread_items_eq (e : env) (locations : list location)
    (g : gmap string row) (wa : world) :
  for_each e 0 locations {| geocache := g; history := [] |} = (Return tt, wa) ->
  thread_items e locations g = result_queue wa ++ [finished]
  /\ thread_geocache e locations g = geocache wa.
Proof.
  intros Hf. unfold thread_items, thread_geocache,
    _geocode_locations_in_thread, bind. rewrite Hf. unfold put, result_queue.
  simpl. rewrite queue_of_app. split; reflexivity.
Qed.

Lemma miss_item_failure (e : env) (index : nat) (city state : string)
    (x : exn) :
  geocode e index (query_string city state) = Fails x ->
  miss_item e index city state = skipped city state (failure_reason x).
Proof.
  intros H. unfold miss_item. rewrite H. destruct x; reflexivity.
Qed.

End WorkerFacts.

(** ** One batch of the worker *)

Module Batch.
Import Worker Scenarios WorkerFacts.

(** C1. When the stop flag is never seen set, the thread puts exactly one
    item for each location, in the order of the list, each a
    [success_cached], [success_geocoded] or [skipped] of its location, then
    exactly one [finished], which is the last item of the batch; and it
    returns normally. *)
Theorem one_item_per_location_then_finished (e : env)
    (locations : list location) (w : world) :
  (forall i, i < length locations -> root_running e i = true) ->
  exists evs w',
    _geocode_locations_in_thread e locations w = (Return tt, w')
    /\ result_queue w' = result_queue w ++ evs ++ [finished]
    /\ Forall2 item_for locations evs
    /\ length evs = length locations
    /\ finished ∉ evs.
Proof.
  intros Hrun.
  destruct (thread_spec e locations w) as (evs & w' & Hf & Hq & Hall & _).
  rewrite (processed_all e locations 0), firstn_all in Hall by exact Hrun.
  exists evs, w'. split_and!; try done.
  - symmetry. eapply Forall2_length. eassumption.
  - eapply item_for_not_finished. eassumption.
Qed.

Lemma one_item_per_location_then_finished_witness :
  exists evs w',
    _geocode_locations_in_thread (locating_env (fun _ => false) 1 2)
      five_locations fresh_world = (Return tt, w')
    /\ result_queue w' = result_queue fresh_world ++ evs ++ [finished]
    /\ Forall2 item_for five_locations evs
    /\ length evs = length five_locations
    /\ finished ∉ evs.
Proof.
  apply (one_item_per_location_then_finished
           (locating_env (fun _ => false) 1 2) five_locations fresh_world).
  intros i _. reflexivity.
Defined.

(** C2, as worded, fails: with five locations and the stop flag seen after
    two of them, the thread puts the two items and then [finished]. *)
Lemma stop_without_finished_fails :
  thread_items (stopping_env 2 1 2) five_locations ∅
  = [success_geocoded "Jackson" "MS" 1 2; success_geocoded "Biloxi" "MS" 1 2;
     finished]
  /\ ~ stop_without_finished (stopping_env 2 1 2) five_locations 2 ∅.
Proof.
  split; [vm_compute; reflexivity|].
  intros H. destruct H as [_ Hnf].
  - split; [|reflexivity]. intros i Hi.
    destruct i as [|[|i]]; [reflexivity..|lia].
  - simpl. lia.
  - apply Hnf. vm_compute. do 2 apply list_elem_of_further.
    apply list_elem_of_here.
Qed.

(** C2, amended. When the stop flag is first seen set after [k] of the
    locations, the thread has put exactly one item for each of those [k]
    locations, puts nothing for the others, and then puts exactly one
    [finished], the last item of the batch. *)
Theorem stop_puts_processed_items_then_finished (e : env)
    (locations : list location) (k : nat) (w : world) :
  stops_at e k ->
  k < length locations ->
  exists evs w',
    _geocode_locations_in_thread e locations w = (Return tt, w')
    /\ result_queue w' = result_queue w ++ evs ++ [finished]
    /\ Forall2 item_for (take k locations) evs
    /\ length evs = k
    /\ finished ∉ evs.
Proof.
  intros [Hrun Hstop] Hk.
  destruct (thread_spec e locations w) as (evs & w' & Hf & Hq & Hall & _).
  rewrite (processed_stop e locations 0 k) in Hall by assumption.
  exists evs, w'. split_and!; try done.
  - apply Forall2_length in Hall. rewrite length_take in Hall. lia.
  - eapply item_for_not_finished. eassumption.
Qed.

Lemma stop_puts_processed_items_then_finished_witness :
  exists evs w',
    _geocode_locations_in_thread (stopping_env 2 1 2) five_locations
      fresh_world = (Return tt, w')
    /\ result_queue w' = result_queue fresh_world ++ evs ++ [finished]
    /\ Forall2 item_for (take 2 five_locations) evs
    /\ length evs = 2
    /\ finished ∉ evs.
Proof.
  apply (stop_puts_processed_items_then_finished (stopping_env 2 1 2)
           five_locations 2 fresh_world).
  - split; [|reflexivity]. intros i Hi.
    destruct i as [|[|i]]; [reflexivity..|lia].
  - simpl. lia.
Defined.

(** C3. A location found in the cache gets its [success_cached] item and
    nothing else happens for it: no call of the geocoder and no sleep, and
    the next location is processed from there. A location not found in the
    cache has the geocoder called, its item put, and then a sleep of at
    least 1.1 seconds, which ends before the next location is processed. *)
Theorem throttle_exactly_on_cache_miss (e : env) (pre : list location)
    (city state : string) (post : list location) (w : world) :
  (forall i, i <= length pre -> root_running e i = true) ->
  exists w1 w2,
    for_each e 0 pre w = (Return tt, w1)
    /\ get_cached_location_db (select_error e (length pre))
         (cache_key city state) w1
       = (Return (cached_coords e (length pre) (cache_key city state) w1), w1)
    /\ loop_body e (length pre) (city, state) w1 = (Return next_iteration, w2)
    /\ for_each e 0 (pre ++ (city, state) :: post) w
       = for_each e (S (length pre)) post w2
    /\ match cached_coords e (length pre) (cache_key city state) w1 with
       | Some (lat, lon) =>
           history w2
           = history w1 ++ [queue_put (success_cached city state lat lon)]
       | None =>
           exists it d,
             history w2
             = history w1
               ++ [nominatim_geocode (query_string city state) 10;
                   queue_put it; time_sleep d]
             /\ (11 # 10 <= d)%Q
       end.
Proof.
  intros Hrun.
  pose proof (fun w1 => get_cached_location_db_eq e (length pre)
                          (cache_key city state) w1) as Hget.
  destruct (for_each_app e pre 0 ((city, state) :: post) w)
    as (evs & w1 & Hf & _ & _ & _ & Happ).
  { intros i Hi. apply Hrun. lia. }
  change (0 + length pre) with (length pre) in Happ.
  rewrite for_each_cons in Happ.
  assert (Hr : root_running e (length pre) = true) by (apply Hrun; lia).
  destruct (cached_coords e (length pre) (cache_key city state) w1)
    as [[lat lon]|] eqn:Hc.
  - pose proof (loop_body_hit e _ city state lat lon w1 Hr Hc) as Hb.
    rewrite Hb in Happ. eexists w1, _. split_and!; [done..|].
    rewrite Hc. reflexivity.
  - pose proof (loop_body_miss e _ city state w1 Hr Hc) as Hb.
    rewrite Hb in Happ. eexists w1, _. split_and!; [done..|].
    rewrite Hc. eexists _, _. split; [reflexivity|]. apply Qle_refl.
Qed.

Lemma throttle_exactly_on_cache_miss_witness :
  exists w1 w2,
    for_each (locating_env (fun _ => false) 1 2) 0 [("a|b", "c")%string]
      fresh_world = (Return tt, w1)
    /\ get_cached_location_db
         (select_error (locating_env (fun _ => false) 1 2) 1)
         (cache_key "a" "b|c") w1
       = (Return
            (cached_coords (locating_env (fun _ => false) 1 2) 1
               (cache_key "a" "b|c") w1), w1)
    /\ loop_body (locating_env (fun _ => false) 1 2) 1 ("a", "b|c")%string w1
       = (Return next_iteration, w2)
    /\ for_each (locating_env (fun _ => false) 1 2) 0
         ([("a|b", "c")%string] ++ ("a", "b|c")%string
            :: [("Jackson", "MS")%string])
         fresh_world
       = for_each (locating_env (fun _ => false) 1 2) 2
           [("Jackson", "MS")%string] w2
    /\ match
         cached_coords (locating_env (fun _ => false) 1 2) 1
           (cache_key "a" "b|c") w1
       with
       | Some (lat, lon) =>
           history w2
           = history w1 ++ [queue_put (success_cached "a" "b|c" lat lon)]
       | None =>
           exists it d,
             history w2
             = history w1
               ++ [nominatim_geocode (query_string "a" "b|c") 10;
                   queue_put it; time_sleep d]
             /\ (11 # 10 <= d)%Q
       end.
Proof.
  apply (throttle_exactly_on_cache_miss (locating_env (fun _ => false) 1 2)
           [("a|b", "c")%string] "a" "b|c" [("Jackson", "MS")%string]
           fresh_world).
  intros i _. reflexivity.
Defined.

(** C4. The thread function returns normally whatever happens. When the
    geocoder call for a location raises, whatever the exception, exactly one
    [skipped] item of that location is put, and the locations after it are
    processed as usual: each gets its item, and [finished] closes the
    batch. *)
Theorem geocoder_failure_is_contained :
  (forall (e : env) (locations : list location) (w : world),
     exists w', _geocode_locations_in_thread e locations w = (Return tt, w'))
  /\ (forall (e : env) (pre : list location) (city state : string)
        (post : list location) (w : world) (x : exn),
        (forall i, i < length (pre ++ (city, state) :: post) ->
                   root_running e i = true) ->
        cached_coords e (length pre) (cache_key city state)
          (for_each e 0 pre w).2 = None ->
        geocode e (length pre) (query_string city state) = Fails x ->
        exists evs_pre evs_post w',
          _geocode_locations_in_thread e (pre ++ (city, state) :: post) w
          = (Return tt, w')
          /\ result_queue w'
             = result_queue w ++ evs_pre
               ++ [skipped city state (failure_reason x)]
               ++ evs_post ++ [finished]
          /\ Forall2 item_for pre evs_pre
          /\ Forall2 item_for post evs_post).
Proof.
  split.
  - intros e locations w.
    destruct (thread_spec e locations w) as (evs & w' & Hf & _).
    exists w'. exact Hf.
  - intros e pre city state post w x Hrun Hmiss Hfail.
    rewrite length_app in Hrun. simpl in Hrun.
    destruct (for_each_app e pre 0 ((city, state) :: post) w)
      as (evs_pre & w1 & Hf & Hq1 & Hall1 & _ & Happ).
    { intros i Hi. apply Hrun. lia. }
    rewrite Hf in Hmiss. simpl in Hmiss.
    change (0 + length pre) with (length pre) in Happ.
    rewrite for_each_cons, loop_body_miss in Happ;
      [|apply Hrun; lia|assumption].
    rewrite (miss_item_failure _ _ _ _ x Hfail) in Happ.
    match type of Happ with
    | _ = for_each _ _ _ ?w2 =>
        destruct (for_each_spec e post (S (length pre)) w2)
          as (evs_post & w3 & Hf3 & Hq3 & Hall3 & _)
    end.
    rewrite processed_all, firstn_all in Hall3.
    2:{ intros i Hi. apply Hrun. lia. }
    exists evs_pre, evs_post, (record_effect (queue_put finished) w3).
    unfold _geocode_locations_in_thread, bind. rewrite Happ, Hf3.
    split_and!; [reflexivity| |assumption..].
    unfold result_queue in *. simpl. rewrite queue_of_app, Hq3. simpl.
    rewrite queue_of_app, Hq1. simpl. rewrite <- !app_assoc. reflexivity.
Qed.

Lemma geocoder_failure_is_contained_witness :
  exists evs_pre evs_post w',
    _geocode_locations_in_thread (replying_env second_times_out)
      ([("Jackson", "MS")%string] ++ ("Biloxi", "MS")%string
         :: [("Tupelo", "MS")%string]) fresh_world
    = (Return tt, w')
    /\ result_queue w'
       = result_queue fresh_world ++ evs_pre
         ++ [skipped "Biloxi" "MS"
               (failure_reason (GeocoderTimedOut "Service timed out"))]
         ++ evs_post ++ [finished]
    /\ Forall2 item_for [("Jackson", "MS")%string] evs_pre
    /\ Forall2 item_for [("Tupelo", "MS")%string] evs_post.
Proof.
  apply (proj2 geocoder_failure_is_contained
           (replying_env second_times_out) [("Jackson", "MS")%string]
           "Biloxi" "MS" [("Tupelo", "MS")%string] fresh_world
           (GeocoderTimedOut "Service timed out")).
  - intros i _. reflexivity.
  - vm_compute. reflexivity.
  - reflexivity.
Defined.

(** C5, as worded, fails: when the write to the table fails, which
    [add_cached_location_db] reports by returning [False] and the thread
    ignores, the location is geocoded again in the next cycle. *)
Lemma geocoded_then_cached_fails :
  thread_items (write_failing_env 1 2) [("Jackson", "MS")%string] ∅
  = [success_geocoded "Jackson" "MS" 1 2; finished]
  /\ thread_items (locating_env (fun _ => false) 1 2)
       [("Jackson", "MS")%string]
       (thread_geocache (write_failing_env 1 2) [("Jackson", "MS")%string] ∅)
     = [success_geocoded "Jackson" "MS" 1 2; finished]
  /\ ~ geocoded_then_cached (write_failing_env 1 2)
        (locating_env (fun _ => false) 1 2) [("Jackson", "MS")%string] ∅.
Proof.
  split_and!; [vm_compute; reflexivity..|].
  intros H.
  destruct (H (fun _ => eq_refl) 0 "Jackson"%string "MS"%string
              1%float 2%float) as (lat & lon & Hhit).
  - vm_compute. reflexivity.
  - vm_compute in Hhit. discriminate.
Qed.

(** The iteration behind the [i]-th item a run of the loop has put, and
    the worlds the run was in before and after it. *)
Lemma for_each_reaches (e : env) (locations : list location) :
  forall (index : nat) (w w' : world) (evs : list item) (i : nat) (it : item),
  for_each e index locations w = (Return tt, w') ->
  result_queue w' = result_queue w ++ evs ->
  evs !! i = Some it ->
  exists l w1 w2,
    locations !! i = Some l
    /\ root_running e (index + i) = true
    /\ for_each e index (take i locations) w = (Return tt, w1)
    /\ loop_body e (index + i) l w1 = (Return next_iteration, w2)
    /\ for_each e index locations w
       = for_each e (S (index + i)) (drop (S i) locations) w2
    /\ result_queue w2 = result_queue w1 ++ [it]
    /\ dom (geocache w2) ⊆ dom (geocache w').
Proof.
  induction locations as [|[city state] rest IH];
    intros index w w' evs i it Hf Hq Hi.
  - simpl in Hf. injection Hf as <-.
    rewrite <- (app_nil_r (result_queue w)) in Hq at 1.
    apply app_inv_head in Hq. subst evs. discriminate.
  - pose proof Hf as Hf0. rewrite for_each_cons in Hf.
    destruct (loop_body_cases e index city state w)
      as [[Hstop Hb]|[Hrun (it0 & w0 & Hb & Hq0 & Hit & Hd)]];
      rewrite Hb in Hf.
    + injection Hf as <-.
      rewrite <- (app_nil_r (result_queue w)) in Hq at 1.
      apply app_inv_head in Hq. subst evs. discriminate.
    + destruct (for_each_spec e rest (S index) w0)
        as (evs' & w'' & Hf' & Hq' & _ & Hd').
      rewrite Hf' in Hf. injection Hf as <-.
      rewrite Hq', Hq0, <- app_assoc in Hq. apply app_inv_head in Hq.
      subst evs. destruct i as [|i]; simpl in Hi.
      * injection Hi as <-. exists (city, state), w, w0.
        rewrite Nat.add_0_r. cbn [take drop].
        split_and!; try done.
        rewrite for_each_cons, Hb. reflexivity.
      * destruct (IH (S index) w0 w'' evs' i it Hf' Hq' Hi)
          as (l & w1 & w2 & Hl & Hr & Hpre & Hb' & Hrest & Hq2 & Hd2).
        exists l, w1, w2.
        replace (index + S i) with (S index + i) by lia.
        cbn [take drop].
        split_and!; try done.
        -- rewrite for_each_cons, Hb. exact Hpre.
        -- rewrite for_each_cons, Hb. exact Hrest.
Qed.

(** An iteration that puts [success_geocoded], when its write to the table
    does not fail: the geocoder was called, the item put and the thread
    slept, and the table is the one before the iteration with the row of
    the coordinates written under the key of the location. *)
Lemma loop_body_geocoded_world (e : env) (index : nat) (l : location)
    (city state : string) (lat lon : float) (w1 w2 : world) (f : flow) :
  root_running e index = true ->
  loop_body e index l w1 = (Return f, w2) ->
  result_queue w2 = result_queue w1 ++ [success_geocoded city state lat lon] ->
  replace_error e index = None ->
  l = (city, state)
  /\ history w2
     = history w1
       ++ [nominatim_geocode (query_string city state) 10;
           queue_put (success_geocoded city state lat lon);
           time_sleep (11 # 10)]
  /\ geocache w2
     = <[cache_key city state :=
           {| latitude := lat; longitude := lon;
              last_accessed := now e index |}]> (geocache w1).
Proof.
  intros Hrun Hb Hq Hrep. destruct l as [c s].
  destruct (cached_coords e index (cache_key c s) w1) as [[la lo]|] eqn:Hc.
  - rewrite (loop_body_hit _ _ _ _ _ _ _ Hrun Hc) in Hb. injection Hb as _ <-.
    unfold result_queue in Hq. simpl in Hq. rewrite queue_of_app in Hq.
    apply app_inv_head in Hq. discriminate.
  - rewrite (loop_body_miss _ _ _ _ _ Hrun Hc) in Hb. injection Hb as _ <-.
    unfold result_queue in Hq. simpl in Hq. rewrite queue_of_app in Hq.
    apply app_inv_head in Hq. simpl in Hq. injection Hq as Hq.
    simpl. unfold miss_item in *. unfold miss_geocache.
    destruct (geocode e index (query_string c s)) as [? ?| |[]];
      try discriminate.
    injection Hq as -> -> -> ->. rewrite Hrep. split_and!; reflexivity.
Qed.

(** C5, amended. When a location is geocoded and the write to the table
    that follows does not fail, the run of the batch went like this: the
    iterations before it led to a world [w1]; its own iteration called the
    geocoder, put the item and slept, and left the table of [w1] with the
    resulting coordinates written under the key of the location; the rest
    of the batch went on from there and the key stays in the table to the
    end of the batch. A later batch that starts from that table, reaches
    the location before any stop, and whose lookup for it does not fail,
    puts [success_cached] for it, not [success_geocoded]. *)
Theorem geocoded_location_hits_cache_next_cycle (e1 e2 : env)
    (locations1 locations2 : list location) (g : gmap string row)
    (i j : nat) (city state : string) (lat lon : float) :
  thread_items e1 locations1 g !! i
  = Some (success_geocoded city state lat lon) ->
  replace_error e1 i = None ->
  locations2 !! j = Some (city, state) ->
  (forall k, k <= j -> root_running e2 k = true) ->
  select_error e2 j = None ->
  locations1 !! i = Some (city, state)
  /\ (exists w1 w2,
        for_each e1 0 (take i locations1) {| geocache := g; history := [] |}
        = (Return tt, w1)
        /\ loop_body e1 i (city, state) w1 = (Return next_iteration, w2)
        /\ for_each e1 0 locations1 {| geocache := g; history := [] |}
           = for_each e1 (S i) (drop (S i) locations1) w2
        /\ history w2
           = history w1
             ++ [nominatim_geocode (query_string city state) 10;
                 queue_put (success_geocoded city state lat lon);
                 time_sleep (11 # 10)]
        /\ geocache w2
           = <[cache_key city state :=
                 {| latitude := lat; longitude := lon;
                    last_accessed := now e1 i |}]> (geocache w1)
        /\ geocache w2 !! cache_key city state
           = Some {| latitude := lat; longitude := lon;
                     last_accessed := now e1 i |})
  /\ cache_key city state ∈ dom (thread_geocache e1 locations1 g)
  /\ exists lat' lon',
       thread_items e2 locations2 (thread_geocache e1 locations1 g) !! j
       = Some (success_cached city state lat' lon').
Proof.
  intros Hi Hrep Hj Hrun Hsel.
  destruct (for_each_spec e1 locations1 0 {| geocache := g; history := [] |})
    as (evs & wa & Hf & Hq & _ & _).
  destruct (thread_items_eq e1 locations1 g wa Hf) as [Hitems Hcache].
  rewrite Hitems, Hq in Hi. simpl in Hi.
  assert (Hi' : evs !! i = Some (success_geocoded city state lat lon)).
  { apply lookup_app_Some in Hi as [Hi|[_ Hi]]; [assumption|].
    apply list_lookup_singleton_Some in Hi as [_ Hi]. discriminate. }
  destruct (for_each_reaches e1 locations1 0 _ wa evs i _ Hf Hq Hi')
    as (l & w1 & w2 & Hl & Hr & Hpre & Hb & Hrest & Hq2 & Hd).
  simpl in Hr, Hb, Hrest.
  destruct (loop_body_geocoded_world e1 i l city state lat lon w1 w2 _ Hr Hb
              Hq2 Hrep) as (-> & Hhist & Htable).
  assert (Hrow : geocache w2 !! cache_key city state
                 = Some {| latitude := lat; longitude := lon;
                           last_accessed := now e1 i |})
    by (rewrite Htable; apply lookup_insert_eq).
  assert (Hin : cache_key city state ∈ dom (thread_geocache e1 locations1 g)).
  { rewrite Hcache. apply Hd. apply elem_of_dom. eexists. exact Hrow. }
  split_and!; [assumption| |assumption|].
  { exists w1, w2. split_and!; assumption. }
  destruct (for_each_hit e2 city state locations2 0 j
              {| geocache := thread_geocache e1 locations1 g; history := [] |}
              Hj Hrun Hsel Hin)
    as (lat' & lon' & evs2 & w' & Hf2 & Hq2' & Hj2).
  exists lat', lon'.
  destruct (thread_items_eq e2 locations2 _ w' Hf2) as [-> _].
  rewrite Hq2'. simpl. apply lookup_app_l_Some. assumption.
Qed.

Lemma geocoded_location_hits_cache_next_cycle_witness :
  five_locations !! 3 = Some ("Oxford", "MS")%string
  /\ (exists w1 w2,
        for_each (locating_env (fun _ => false) 1 2) 0 (take 3 five_locations)
          {| geocache := ∅; history := [] |} = (Return tt, w1)
        /\ loop_body (locating_env (fun _ => false) 1 2) 3
             ("Oxford", "MS")%string w1 = (Return next_iteration, w2)
        /\ for_each (locating_env (fun _ => false) 1 2) 0 five_locations
             {| geocache := ∅; history := [] |}
           = for_each (locating_env (fun _ => false) 1 2) 4
               (drop 4 five_locations) w2
        /\ history w2
           = history w1
             ++ [nominatim_geocode (query_string "Oxford" "MS") 10;
                 queue_put (success_geocoded "Oxford" "MS" 1 2);
                 time_sleep (11 # 10)]
        /\ geocache w2
           = <[cache_key "Oxford" "MS" :=
                 {| latitude := 1; longitude := 2;
                    last_accessed :=
                      now (locating_env (fun _ => false) 1 2) 3 |}]>
               (geocache w1)
        /\ geocache w2 !! cache_key "Oxford" "MS"
           = Some {| latitude := 1; longitude := 2;
                     last_accessed :=
                       now (locating_env (fun _ => false) 1 2) 3 |})
  /\ cache_key "Oxford" "MS"
     ∈ dom (thread_geocache (locating_env (fun _ => false) 1 2)
              five_locations ∅)
  /\ exists lat' lon',
       thread_items (locating_env (fun _ => false) 3 4)
         [("Oxford", "MS")%string]
         (thread_geocache (locating_env (fun _ => false) 1 2)
            five_locations ∅) !! 0
       = Some (success_cached "Oxford" "MS" lat' lon').
Proof.
  apply (geocoded_location_hits_cache_next_cycle
           (locating_env (fun _ => false) 1 2)
           (locating_env (fun _ => false) 3 4)
           five_locations [("Oxford", "MS")%string] ∅ 3 0
           "Oxford" "MS" 1 2).
  - vm_compute. reflexivity.
  - reflexivity.
  - reflexivity.
  - intros k _. reflexivity.
  - reflexivity.
Defined.

End Batch.

(** ** The cache key *)

Module CacheKey.
Import Worker Scenarios.

(** C9. The cache key [city + "|" + state] is not injective: the distinct
    locations ("a|b", "c") and ("a", "b|c") have the same key; in one batch
    the second is served from the cache with the coordinates geocoded for
    the first, and when its own lookup fails its write-through replaces the
    row written for the first. *)
Theorem cache_key_collision :
  let l1 : location := ("a|b", "c")%string in
  let l2 : location := ("a", "b|c")%string in
  l1 <> l2
  /\ cache_key l1.1 l1.2 = cache_key l2.1 l2.2
  /\ result_queue
       (_geocode_locations_in_thread (locating_env (fun _ => false) 1 2)
          [l1; l2] fresh_world).2
     = [success_geocoded "a|b" "c" 1 2; success_cached "a" "b|c" 1 2; finished]
  /\ (let w1 :=
        (_geocode_locations_in_thread (locating_env (fun _ => false) 1 2)
           [l1] fresh_world).2 in
      let w2 :=
        (_geocode_locations_in_thread (locating_env (fun _ => true) 3 4)
           [l2] w1).2 in
      cached_coords (locating_env (fun _ => false) 1 2) 0
        (cache_key l1.1 l1.2) w1 = Some (1%float, 2%float)
      /\ cached_coords (locating_env (fun _ => false) 1 2) 0
           (cache_key l1.1 l1.2) w2 = Some (3%float, 4%float)).
Proof.
  repeat split; try discriminate; vm_compute; reflexivity.
Qed.

End CacheKey.

(** ** The user-interface side *)

Module AppFacts.
Import Worker App Reading.

(** Unfolds the status-bar update and decides whether the label exists. *)
Ltac status_cases :=
  unfold update_status; simpl;
  repeat match goal with
         | |- context [status_label ?s] => destruct (status_label s)
         end;
  simpl; try reflexivity.

Lemma group_case_member (acc : gset location * gmap location (list case))
    (c : case) (l : location) :
  l ∈ (group_case acc c).1 <->
  l ∈ acc.1
  \/ (l = (Py.strip (Py.or_empty (city_of_offense c)),
           Py.strip (Py.or_empty (state_of_offense c)))
      /\ Py.truthy l.1 = true /\ Py.truthy l.2 = true).
Proof.
  unfold group_case.
  destruct (Py.truthy (Py.strip (Py.or_empty (city_of_offense c)))) eqn:Hc;
    destruct (Py.truthy (Py.strip (Py.or_empty (state_of_offense c)))) eqn:Hs;
    simpl.
  - rewrite elem_of_union, elem_of_singleton. split.
    + intros [->|H]; [right|left; assumption]. simpl. auto.
    + intros [H|[-> _]]; auto.
  - split; [auto|]. intros [H|[-> [_ H]]]; [assumption|].
    simpl in H. congruence.
  - split; [auto|]. intros [H|[-> [H _]]]; [assumption|].
    simpl in H. congruence.
  - split; [auto|]. intros [H|[-> [H _]]]; [assumption|].
    simpl in H. congruence.
Qed.

(** The locations of a load are the trimmed (city, state) pairs of the
    cases in which both are non-empty. *)
Lemma unique_locations_spec (cases : list case) (l : location) :
  l ∈ unique_locations cases <->
  exists c, c ∈ cases
    /\ l = (Py.strip (Py.or_empty (city_of_offense c)),
            Py.strip (Py.or_empty (state_of_offense c)))
    /\ Py.truthy l.1 = true /\ Py.truthy l.2 = true.
Proof.
  unfold unique_locations, group_cases.
  assert (Hgen : forall acc,
    l ∈ (foldl group_case acc cases).1 <->
    l ∈ acc.1
    \/ exists c, c ∈ cases
         /\ l = (Py.strip (Py.or_empty (city_of_offense c)),
                 Py.strip (Py.or_empty (state_of_offense c)))
         /\ Py.truthy l.1 = true /\ Py.truthy l.2 = true).
  { induction cases as [|c cases IH]; intros acc; simpl.
    - split; [auto|]. intros [H|(c & Hc & _)]; [assumption|].
      apply elem_of_nil in Hc. contradiction.
    - rewrite IH, group_case_member. split.
      + intros [[H|H]|(c' & Hc' & H)]; [auto| |].
        * right. exists c. split; [apply list_elem_of_here|assumption].
        * right. exists c'. split; [apply list_elem_of_further|]; assumption.
      + intros [H|(c' & Hc' & H)]; [auto|].
        apply elem_of_cons in Hc' as [->|Hc']; [auto|].
        right. exists c'. auto. }
  rewrite Hgen. simpl. split.
  - intros [H|H]; [|assumption]. apply not_elem_of_empty in H. contradiction.
  - auto.
Qed.

Lemma same_objects_refl (s : state) : same_objects s s.
Proof. repeat split. Qed.

Lemma same_objects_trans (s1 s2 s3 : state) :
  same_objects s1 s2 -> same_objects s2 s3 -> same_objects s1 s3.
Proof.
  unfold same_objects. intros (?&?&?&?&?&?&?) (?&?&?&?&?&?&?).
  split_and!; congruence.
Qed.

(** Decides the outcome of the Tk calls of one item. *)
Ltac ui_cases u i s :=
  destruct (set_marker_raises u i); simpl;
  destruct (status_config_raises u i); simpl;
  destruct (status_label s) eqn:?; simpl;
  destruct (running s) eqn:?; simpl;
  destruct (update_idletasks_raises u i); simpl.

(** Handling one result tuple adds one to one of the two counters, and to
    both exactly when the result is counted twice. *)
Lemma process_item_counts (u : ui_env) (i : nat) (it : item) (s : state) :
  is_finished it = false ->
  (counted_twice u i it s = false
   /\ ((geolocated_count (process_item u i it s) = S (geolocated_count s)
        /\ skipped_count (process_item u i it s) = skipped_count s)
       \/ (geolocated_count (process_item u i it s) = geolocated_count s
           /\ skipped_count (process_item u i it s)
              = S (skipped_count s))))
  \/ (counted_twice u i it s = true
      /\ geolocated_count (process_item u i it s) = S (geolocated_count s)
      /\ skipped_count (process_item u i it s) = S (skipped_count s)).
Proof.
  intros Hit. unfold counted_twice, status_update_fails.
  destruct it; try discriminate; unfold process_item, update_status; simpl;
    ui_cases u i s; auto.
Qed.

(** When the status updates return, exactly one counter is raised. *)
Lemma process_item_once (u : ui_env) (i : nat) (it : item) (s : state) :
  status_updates_return u ->
  counted_twice u i it s = false.
Proof.
  intros Hq. destruct (Hq i) as [Hc Hi].
  unfold counted_twice, status_update_fails. rewrite Hc, Hi.
  destruct (is_success it), (set_marker_raises u i), (running s); reflexivity.
Qed.

Lemma process_item_frame (u : ui_env) (i : nat) (it : item) (s : state) :
  same_objects s (process_item u i it s)
  /\ geocoding_thread (process_item u i it s) = geocoding_thread s
  /\ processing_queue (process_item u i it s) = processing_queue s.
Proof.
  unfold same_objects.
  destruct it; unfold process_item, update_status; simpl;
    ui_cases u i s; split_and!; simpl; congruence.
Qed.

(** The finalize step touches the view, the two status texts and nothing
    else. *)
Lemma finalize_frame (u : ui_env) (s : state) :
  same_objects s (_finalize_map_loading u s)
  /\ geocoding_thread (_finalize_map_loading u s) = geocoding_thread s
  /\ processing_queue (_finalize_map_loading u s) = processing_queue s
  /\ geolocated_count (_finalize_map_loading u s) = geolocated_count s
  /\ skipped_count (_finalize_map_loading u s) = skipped_count s
  /\ map_markers (_finalize_map_loading u s) = map_markers s
  /\ canvas_markers (_finalize_map_loading u s) = canvas_markers s.
Proof.
  unfold same_objects, _finalize_map_loading, center_on_MS, update_status.
  destruct (map_widget s) eqn:Hw; simpl;
    [destruct (0 <? geolocated_count s)%nat; simpl;
     [destruct (map_to_list (map_markers s)); simpl;
      [|destruct (fit_markers_raises u); simpl]|]|];
    destruct (status_label s); simpl;
    repeat match goal with
           | |- context [if ?b then _ else _] => destruct b; simpl
           end;
    split_and!; first [reflexivity | exact Hw].
Qed.


(** The loop of a drain. With the map widget it consumes every item and
    the two counters together grow by at least the number of result
    tuples, by at most twice that number, and by that number when the
    status updates return; without it the first item is dropped and the
    counters stay. The thread reference changes only when [finished] is
    met, and then to [None]. *)
Lemma drain_spec (u : ui_env) (items : list item) :
  forall (i : nat) (s : state),
  exists s' rest,
    drain u i items s = (s', rest)
    /\ same_objects s s'
    /\ rest `suffix_of` items
    /\ (map_widget s = true -> rest = [])
    /\ (geocoding_thread s' = geocoding_thread s
        \/ (geocoding_thread s' = None /\ finished ∈ items))
    /\ geolocated_count s + skipped_count s
       + (if map_widget s then count_results items else 0)
       <= geolocated_count s' + skipped_count s'
    /\ geolocated_count s' + skipped_count s'
       <= geolocated_count s + skipped_count s
          + 2 * (if map_widget s then count_results items else 0)
    /\ (status_updates_return u ->
        geolocated_count s' + skipped_count s'
        = geolocated_count s + skipped_count s
          + (if map_widget s then count_results items else 0)).
Proof.
  induction items as [|it items IH]; intros i s.
  - exists s, []. simpl.
    split; [|split; [|split; [|split; [|split]]]];
      auto using same_objects_refl.
    destruct (map_widget s); unfold count_results; simpl;
      split_and!; try intros _; lia.
  - simpl drain.
    set (s1 := match it with
               | finished =>
                   _finalize_map_loading u
                     (set_geocoding_thread None (set_processing_queue false s))
               | _ => s
               end).
    assert (H1 : same_objects s s1
                 /\ geolocated_count s1 = geolocated_count s
                 /\ skipped_count s1 = skipped_count s
                 /\ (geocoding_thread s1 = geocoding_thread s
                     \/ (geocoding_thread s1 = None /\ it = finished))).
    { subst s1.
      destruct it;
        try exact (conj (same_objects_refl s)
                     (conj eq_refl (conj eq_refl (or_introl eq_refl)))).
      destruct (finalize_frame u
                  (set_geocoding_thread None (set_processing_queue false s)))
        as (Hs & Ht & _ & Hg & Hk & _).
      exact (conj Hs (conj Hg (conj Hk (or_intror (conj Ht eq_refl))))). }
    destruct H1 as (Hs1 & Hg1 & Hk1 & Ht1). clearbody s1.
    assert (Hw1 : map_widget s1 = map_widget s) by apply Hs1.
    destruct (map_widget s) eqn:Hw; rewrite Hw1; simpl.
    + destruct (IH (S i) (process_item u i it s1))
        as (s' & rest & Hd & Hs' & Hsuf & Hrest & Ht' & Hc').
      destruct (process_item_frame u i it s1) as (Hsp & Htp & _).
      assert (Hwp : map_widget (process_item u i it s1) = true).
      { destruct Hsp as (_ & _ & -> & _). assumption. }
      rewrite Hwp in Hc'. specialize (Hrest Hwp). subst rest.
      exists s', []. rewrite Hd.
      split; [|split; [|split; [|split; [|split]]]].
      * reflexivity.
      * eauto using same_objects_trans.
      * apply suffix_nil.
      * reflexivity.
      * rewrite Htp in Ht'.
        destruct Ht' as [->|[-> Hin]];
          [destruct Ht1 as [->|[-> ->]]|]; auto.
        -- right. split; [done|apply list_elem_of_here].
        -- right. split; [done|apply list_elem_of_further; assumption].
      * assert (Hstep :
          geolocated_count s1 + skipped_count s1 + count_results [it]
          <= geolocated_count (process_item u i it s1)
             + skipped_count (process_item u i it s1)
          /\ geolocated_count (process_item u i it s1)
             + skipped_count (process_item u i it s1)
             <= geolocated_count s1 + skipped_count s1
                + 2 * count_results [it]
          /\ (status_updates_return u ->
              geolocated_count (process_item u i it s1)
              + skipped_count (process_item u i it s1)
              = geolocated_count s1 + skipped_count s1
                + count_results [it])).
        { unfold count_results. simpl.
          destruct (is_finished it) eqn:Hfin; simpl.
          - destruct it; try discriminate. simpl.
            split_and!; try intros _; lia.
          - destruct (process_item_counts u i it s1 Hfin)
              as [[Ht [[-> ->]|[-> ->]]]|[Ht [-> ->]]];
              (split_and!; [lia|lia|]); intros Hq; try lia.
            rewrite (process_item_once u i it s1 Hq) in Ht. discriminate. }
        assert (Hcons : count_results (it :: items)
                        = count_results [it] + count_results items).
        { unfold count_results. simpl.
          destruct (is_finished it); simpl; lia. }
        rewrite Hcons. destruct Hc' as (Hlo & Hhi & Heq).
        destruct Hstep as (Hlo1 & Hhi1 & Heq1).
        rewrite Hg1, Hk1 in Hlo1, Hhi1, Heq1.
        split_and!; [lia|lia|].
        intros Hq. specialize (Heq Hq). specialize (Heq1 Hq). lia.
    + exists (set_processing_queue false s1), items.
      split; [|split; [|split; [|split; [|split]]]].
      * reflexivity.
      * exact Hs1.
      * apply suffix_cons_r. reflexivity.
      * discriminate.
      * simpl. destruct Ht1 as [->|[-> ->]]; auto.
        right. split; [done|apply list_elem_of_here].
      * simpl. split_and!; try intros _; lia.
Qed.

(** One call of [_process_geocoding_results]. *)
Lemma process_results_spec (u : ui_env) (s : state) :
  threads (_process_geocoding_results u s) = threads s
  /\ geocoding_queue (_process_geocoding_results u s) = geocoding_queue s
  /\ map_widget (_process_geocoding_results u s) = map_widget s
  /\ running (_process_geocoding_results u s) = running s
  /\ (exists rest,
        rest `suffix_of` queue_contents s
        /\ (map_widget s = true -> rest = [])
        /\ queues (_process_geocoding_results u s)
           = <[geocoding_queue s := rest]> (queues s))
  /\ (geocoding_thread (_process_geocoding_results u s) = geocoding_thread s
      \/ (geocoding_thread (_process_geocoding_results u s) = None
          /\ finished ∈ queue_contents s))
  /\ geolocated_count s + skipped_count s + results_handled s
     <= geolocated_count (_process_geocoding_results u s)
        + skipped_count (_process_geocoding_results u s)
  /\ geolocated_count (_process_geocoding_results u s)
     + skipped_count (_process_geocoding_results u s)
     <= geolocated_count s + skipped_count s + 2 * results_handled s
  /\ (status_updates_return u ->
      geolocated_count (_process_geocoding_results u s)
      + skipped_count (_process_geocoding_results u s)
      = geolocated_count s + skipped_count s + results_handled s).
Proof.
  unfold _process_geocoding_results, results_handled.
  destruct (drain_spec u (queue_contents s) 0 s)
    as (s' & rest & Hd & Hs & Hsuf & Hrest & Ht & Hlo & Hhi & Heq).
  rewrite Hd. destruct Hs as (Hr & Ha & Hw & Hg & Hq & Hqs & Hth).
  match goal with
  | |- context [if ?b then _ else _] => destruct b
  end; [destruct (map_widget _) eqn:E|]; simpl in *;
    (split; [|split; [|split; [|split; [|split; [|split;
       [|split; [|split]]]]]]]);
    try assumption; try congruence;
    try (exists rest; rewrite Hqs; split_and!; done).
Qed.



(** A freshly created queue is empty. *)
Lemma new_queue_empty (qs : list (list item)) :
  (qs ++ [[]]) !! length qs = Some ([] : list item).
Proof. apply list_lookup_middle. reflexivity. Qed.

(** Assigning to two attributes what they hold changes nothing. *)
Lemma state_eta (s : state) :
  set_threads (threads s) (set_queues (queues s) s) = s.
Proof. destruct s. reflexivity. Qed.



(** The thread [t], alive and writing to the queue [q], after [k] turns:
    it has put the first [k] of its items, or all of them. *)
Lemma early_puts_state (t q : nat) (items : list item) (k : nat) :
  forall (s : state) (before : list item),
  threads s !! t
  = Some {| th_queue := q; th_pending := items; th_alive := true |} ->
  queues s !! q = Some before ->
  Nat.iter k (thread_put t) s
  = set_threads
      (<[t := {| th_queue := q; th_pending := drop k items;
                 th_alive := true |}]> (threads s))
      (set_queues (<[q := before ++ take k items]> (queues s)) s).
Proof.
  induction k as [|k IH]; intros s before Ht Hq.
  - simpl. rewrite drop_0, take_0, app_nil_r.
    rewrite (list_insert_id _ _ _ Ht), (list_insert_id _ _ _ Hq).
    symmetry. apply state_eta.
  - rewrite Nat.iter_succ, (IH s before Ht Hq). unfold thread_put.
    cbn [threads set_threads set_queues queues].
    assert (Hlt : t < length (threads s))
      by (eapply lookup_lt_Some; eassumption).
    assert (Hlq : q < length (queues s))
      by (eapply lookup_lt_Some; eassumption).
    rewrite list_lookup_insert_eq by assumption. cbn [th_alive th_pending th_queue].
    destruct (drop k items) as [|it rest] eqn:Hd.
    + assert (Hk : length items <= k).
      { destruct (decide (length items <= k)) as [H|H]; [exact H|].
        assert (Hl : length (drop k items) = length items - k)
          by apply length_drop.
        rewrite Hd in Hl. simpl in Hl. lia. }
      rewrite (drop_ge items (S k)) by lia.
      rewrite (take_ge items (S k)) by lia.
      rewrite (take_ge items k) by lia. reflexivity.
    + assert (Hd' : drop (S k) items = rest).
      { replace (S k) with (k + 1) by lia. rewrite <- drop_drop, Hd.
        reflexivity. }
      assert (Ht' : take (S k) items = take k items ++ [it]).
      { rewrite <- (take_drop k items) at 1.
        rewrite Hd.
        assert (Hlk : length (take k items) = k).
        { apply length_take_le.
          assert (Hl : length (drop k items) = length items - k)
            by apply length_drop.
          rewrite Hd in Hl. simpl in Hl. lia. }
        rewrite take_app_ge by lia. rewrite Hlk.
        replace (S k - k) with 1 by lia. reflexivity. }
      rewrite Hd', Ht'. unfold set_threads, set_queues. simpl.
      rewrite list_insert_insert_eq. f_equal.
      apply list_eq. intros j. destruct (decide (j = q)) as [->|Hne].
      * rewrite list_lookup_alter_eq, !list_lookup_insert_eq by assumption.
        simpl. rewrite app_assoc. reflexivity.
      * rewrite list_lookup_alter_ne, !list_lookup_insert_ne by congruence.
        reflexivity.
Qed.

(** Without cases there are no locations. *)
Lemma load_locations_nil (le : load_env) :
  all_cases le = [] -> load_locations le = [].
Proof.
  intros H. unfold load_locations, list_of_set, unique_locations, group_cases.
  rewrite H. simpl. rewrite elements_empty. reflexivity.
Qed.

(** A load that starts a thread, up to its call of
    [_process_geocoding_results]: the thread has put its early items on
    the new queue, and the markers and counters have been reset. *)
Lemma load_before_drain (u : ui_env) (le : load_env) (s : state) :
  map_widget s = true ->
  thread_is_alive s = false ->
  load_locations le <> [] ->
  exists s2,
    load_map_markers u le s = _process_geocoding_results u s2
    /\ threads s2
       = threads s
         ++ [{| th_queue := length (queues s);
                th_pending :=
                  drop (early_puts le)
                    (thread_items (thread_env le) (load_locations le)
                       (table le));
                th_alive := true |}]
    /\ queues s2 = queues s ++ [early_items le]
    /\ geocoding_queue s2 = length (queues s)
    /\ geocoding_thread s2 = Some (length (threads s))
    /\ processing_queue s2 = true
    /\ map_widget s2 = true
    /\ running s2 = running s
    /\ after_scheduled s2 = after_scheduled s
    /\ _grouped_cases_by_location s2 = (group_cases (all_cases le)).2
    /\ canvas_markers s2 = []
    /\ map_markers s2 = ∅
    /\ geolocated_count s2 = 0
    /\ skipped_count s2 = 0
    /\ status_text s2
       = "Loading map markers (Geocoding in progress)..."%string
    /\ (is_Some (status_label s) -> is_Some (status_label s2))
    /\ map_view s2 = map_view s
    /\ map_status_label s2 = map_status_label s.
Proof.
  intros Hw Ha Hne. unfold load_map_markers. rewrite Hw, Ha. cbn [negb].
  destruct (all_cases le) as [|c cases] eqn:Hc;
    [apply load_locations_nil in Hc; contradiction|].
  unfold load_locations in Hne. rewrite Hc in Hne.
  unfold early_items, load_locations. rewrite Hc.
  destruct (list_of_set (set_order le) (unique_locations (c :: cases)))
    as [|l ls] eqn:Hl; [contradiction|].
  assert (Hins : forall (A : Type) (xs : list A) (x y : A),
            <[length xs := y]> (xs ++ [x]) = xs ++ [y]).
  { intros A xs x y. rewrite insert_app_r_alt by lia.
    rewrite Nat.sub_diag. reflexivity. }
  unfold update_status; simpl;
    destruct (status_label s) as [lbl|] eqn:Hlbl; simpl;
    (erewrite (early_puts_state (length (threads s)) (length (queues s))
                 (thread_items (thread_env le) (l :: ls) (table le))
                 (early_puts le) _ []);
     [|simpl; apply list_lookup_middle; reflexivity
      |simpl; apply new_queue_empty]);
    (eexists; split; [reflexivity|]); simpl; rewrite !Hins;
    split_and!; try reflexivity; try assumption;
    try (intros _; eexists; reflexivity);
    intros [? [=]].
Qed.





End AppFacts.

(** ** The map after a load *)

Module MapView.
Import Worker App Scenarios Reading AppFacts.

(** C8. For the three cases of the scenario the set of locations is exactly
    {("Jackson", "MS")}: the case with the empty city is left out, as is
    every case whose trimmed city or state is empty. The popup text of the
    Jackson marker, as built from the grouped cases and as stored in the
    marker the drain places, lists "Fraud" and "Theft" once each. *)
Theorem jackson_scenario :
  let text :=
    ("City of Offense: Jackson" +:+ Py.nl +:+ Py.nl +:+ "Types of Offense:"
     +:+ Py.nl +:+ "- Fraud" +:+ Py.nl +:+ "- Theft")%string in
  unique_locations jackson_cases = {[ ("Jackson", "MS")%string ]}
  /\ list_of_unique_locations jackson_cases = [("Jackson", "MS")%string]
  /\ (forall (cases : list case) (city state : string),
        (city, state) ∈ unique_locations cases ->
        city <> ""%string /\ state <> ""%string
        /\ exists c, c ∈ cases
             /\ city = Py.strip (Py.or_empty (city_of_offense c))
             /\ state = Py.strip (Py.or_empty (state_of_offense c)))
  /\ info_text_for_popup (group_cases jackson_cases).2 "Jackson" "MS" = text
  /\ map_markers jackson_drained !! ("Jackson", "MS")%string
     = Some {| position := (32.25%float, (-90.25)%float); data := text |}
  /\ canvas_markers jackson_drained
     = [{| position := (32.25%float, (-90.25)%float); data := text |}]
  /\ Py.occurrences "Fraud" text = 1
  /\ Py.occurrences "Theft" text = 1.
Proof.
  split_and!; try (vm_compute; reflexivity).
  intros cases city state H.
  apply unique_locations_spec in H as (c & Hc & Heq & Hcity & Hstate).
  simpl in *. injection Heq as -> ->.
  split_and!.
  - intros E. rewrite E in Hcity. discriminate.
  - intros E. rewrite E in Hstate. discriminate.
  - exists c. auto.
Qed.

Lemma jackson_scenario_witness :
  "Jackson"%string <> ""%string /\ "MS"%string <> ""%string
  /\ exists c, c ∈ jackson_cases
       /\ "Jackson"%string = Py.strip (Py.or_empty (city_of_offense c))
       /\ "MS"%string = Py.strip (Py.or_empty (state_of_offense c)).
Proof.
  pose proof jackson_scenario as H. cbv zeta in H.
  destruct H as (Hset & _ & Hgen & _).
  apply (Hgen jackson_cases "Jackson"%string "MS"%string).
  rewrite Hset. apply elem_of_singleton. reflexivity.
Defined.







End MapView.

(** ** The threads and the queues over the life of the program *)

Module Lifecycle.
Import Worker App Scenarios Reading WorkerFacts AppFacts.

Lemma update_status_objects (msg : string) (s : state) :
  threads (update_status msg s) = threads s
  /\ queues (update_status msg s) = queues s
  /\ geocoding_queue (update_status msg s) = geocoding_queue s
  /\ geocoding_thread (update_status msg s) = geocoding_thread s
  /\ map_markers (update_status msg s) = map_markers s
  /\ canvas_markers (update_status msg s) = canvas_markers s
  /\ geolocated_count (update_status msg s) = geolocated_count s
  /\ skipped_count (update_status msg s) = skipped_count s.
Proof. split_and!; status_cases. Qed.

(** The three ways a call of [load_map_markers] can go: stopped by one of
    its guards, ended early for want of locations, or a thread started on a
    fresh queue, on which it has put its early items when the load drains
    it. *)
Lemma load_cases (u : ui_env) (le : load_env) (s : state) :
  (exists msg,
     load_map_markers u le s = update_status msg s
     /\ (map_widget s = false \/ thread_is_alive s = true))
  \/ (thread_is_alive s = false
      /\ threads (load_map_markers u le s) = threads s
      /\ queues (load_map_markers u le s) = queues s
      /\ geocoding_queue (load_map_markers u le s) = geocoding_queue s
      /\ geocoding_thread (load_map_markers u le s) = geocoding_thread s)
  \/ (thread_is_alive s = false
      /\ exists s2,
          load_map_markers u le s = _process_geocoding_results u s2
          /\ threads s2
             = threads s
               ++ [{| th_queue := length (queues s);
                      th_pending :=
                        drop (early_puts le)
                          (thread_items (thread_env le) (load_locations le)
                             (table le));
                      th_alive := true |}]
          /\ queues s2 = queues s ++ [early_items le]
          /\ geocoding_queue s2 = length (queues s)
          /\ geocoding_thread s2 = Some (length (threads s))).
Proof.
  destruct (map_widget s) eqn:Hw.
  2:{ left. unfold load_map_markers. rewrite Hw. simpl. eauto. }
  destruct (thread_is_alive s) eqn:Ha.
  { left. unfold load_map_markers. rewrite Hw, Ha. simpl. eauto. }
  right. destruct (load_locations le) as [|l ls] eqn:Hl.
  - left. split; [reflexivity|].
    unfold load_map_markers. rewrite Hw, Ha. simpl.
    destruct (all_cases le) as [|c cases] eqn:Hc;
      [split_and!; status_cases|].
    unfold load_locations in Hl. rewrite Hc in Hl. rewrite Hl.
    split_and!; status_cases.
  - right. split; [reflexivity|].
    destruct (load_before_drain u le s Hw Ha)
      as (s2 & Hload & Hth & Hqs & Hgq & Hgt & _);
      [rewrite Hl; discriminate|].
    exists s2. rewrite <- Hl. split_and!; assumption.
Qed.

Lemma count_finished_app (a b : list item) :
  count_finished (a ++ b) = count_finished a + count_finished b.
Proof. unfold count_finished. rewrite List.filter_app, length_app. done. Qed.

Lemma count_finished_none (items : list item) :
  finished ∉ items -> count_finished items = 0.
Proof.
  induction items as [|it items IH]; intros H; [reflexivity|].
  apply not_elem_of_cons in H as [Hne Hni].
  unfold count_finished in *. simpl.
  destruct it; simpl; auto. contradiction.
Qed.

Lemma count_finished_suffix (rest items : list item) :
  rest `suffix_of` items -> count_finished rest <= count_finished items.
Proof. intros [k ->]. rewrite count_finished_app. lia. Qed.

Lemma not_finished_suffix (rest items : list item) :
  rest `suffix_of` items -> finished ∉ items -> finished ∉ rest.
Proof. intros [k ->] H Hin. apply H, elem_of_app. auto. Qed.

(** What a thread is created to put: result tuples, then [finished]. *)
Lemma thread_items_shape (e : env) (locations : list location)
    (g : gmap string row) :
  exists evs,
    thread_items e locations g = evs ++ [finished] /\ finished ∉ evs.
Proof.
  destruct (thread_spec e locations {| geocache := g; history := [] |})
    as (evs & w' & Hf & Hq & Hall & _).
  exists evs. unfold thread_items. rewrite Hf. simpl. split; [exact Hq|].
  eapply item_for_not_finished. eassumption.
Qed.

(** A drain keeps the invariant: it removes items from the head of the
    queue the application reads, and forgets the thread only when it takes
    [finished] out of that queue. *)
Lemma consistent_drain (ths : list thread) (qs : list (list item))
    (gq : nat) (gt gt' : option nat) (rest : list item) :
  consistent ths qs gq gt ->
  rest `suffix_of` default [] (qs !! gq) ->
  (gt' = gt \/ (gt' = None /\ finished ∈ default [] (qs !! gq))) ->
  consistent ths (<[gq := rest]> qs) gq gt'.
Proof.
  intros (Hgq & Hq & Hinj & Hpend & Hcnt) Hsuf Hgt.
  destruct (lookup_lt_is_Some_2 qs gq Hgq) as [items Hitems].
  rewrite Hitems in Hsuf, Hgt. simpl in Hsuf, Hgt.
  split_and!.
  - rewrite length_insert. assumption.
  - intros t th Ht. rewrite length_insert. eauto.
  - assumption.
  - intros t th Ht Hne.
    destruct (Hpend t th Ht Hne) as (Ha & Hcur & Hqeq & Hshape & Hnf).
    assert (Hni : finished ∉ items) by (apply Hnf; congruence).
    split_and!; try assumption.
    + destruct Hgt as [->|[_ Hin]]; [assumption|contradiction].
    + intros items'. rewrite <- Hqeq, list_lookup_insert_eq by assumption.
      intros [= <-]. eapply not_finished_suffix; eassumption.
  - intros q items' Hq'.
    apply list_lookup_insert_Some in Hq' as [(-> & <- & _)|[_ Hq']].
    + etrans; [apply count_finished_suffix; eassumption|]. eauto.
    + eauto.
Qed.

(** A [put] of a thread keeps the invariant. *)
Lemma consistent_put (ths : list thread) (qs : list (list item)) (gq : nat)
    (gt : option nat) (t : nat) (th : thread) (it : item)
    (rest : list item) :
  consistent ths qs gq gt ->
  ths !! t = Some th ->
  th_pending th = it :: rest ->
  consistent
    (<[t := {| th_queue := th_queue th; th_pending := rest;
               th_alive := true |}]> ths)
    (alter (fun q => q ++ [it]) (th_queue th) qs) gq gt.
Proof.
  intros (Hgq & Hq & Hinj & Hpend & Hcnt) Ht Hp.
  assert (Hne : th_pending th <> []) by (rewrite Hp; discriminate).
  destruct (Hpend t th Ht Hne) as (Ha & Hcur & Hqeq & (evs & Hshape & Hevs) & Hnf).
  assert (Hlt : t < length ths) by (eapply lookup_lt_Some; eassumption).
  destruct (lookup_lt_is_Some_2 qs (th_queue th) (Hq t th Ht))
    as [items Hitems].
  specialize (Hnf items Hitems).
  split_and!.
  - rewrite length_alter. assumption.
  - intros t0 th0 Ht0. rewrite length_alter.
    apply list_lookup_insert_Some in Ht0 as [(-> & <- & _)|[_ Ht0]];
      simpl; eauto.
  - intros t1 t2 th1 th2 H1 H2 He.
    apply list_lookup_insert_Some in H1 as [(-> & <- & _)|[Hn1 H1]];
      apply list_lookup_insert_Some in H2 as [(-> & <- & _)|[Hn2 H2]];
      simpl in He; eauto.
  - intros t0 th0 Ht0 Hne0.
    apply list_lookup_insert_Some in Ht0 as [(-> & <- & _)|[Hn0 Ht0]];
      simpl in *.
    + rewrite Hp in Hshape. destruct evs as [|ev evs]; simpl in Hshape.
      { injection Hshape as _ ->. contradiction. }
      injection Hshape as -> ->.
      apply not_elem_of_cons in Hevs as [Hev Hevs].
      split_and!; try done; [eauto|].
      intros items'. rewrite list_lookup_alter_eq, Hitems. simpl.
      intros [= <-]. rewrite elem_of_app, list_elem_of_singleton.
      intros [?|?]; [contradiction|congruence].
    + destruct (Hpend t0 th0 Ht0 Hne0) as (Ha0 & Hcur0 & Hq0 & Hs0 & Hnf0).
      split_and!; try assumption.
      intros items'. rewrite list_lookup_alter_ne; [apply Hnf0|].
      intros He. apply Hn0. eauto.
  - intros q items'. destruct (decide (q = th_queue th)) as [->|Hnq].
    + rewrite list_lookup_alter_eq, Hitems. simpl. intros [= <-].
      rewrite count_finished_app, (count_finished_none items Hnf).
      unfold count_finished. simpl. destruct (is_finished it); simpl; lia.
    + rewrite list_lookup_alter_ne by congruence. eauto.
Qed.

(** The return of a thread that has put everything keeps the invariant. *)
Lemma consistent_exit (ths : list thread) (qs : list (list item)) (gq : nat)
    (gt : option nat) (t : nat) (th : thread) :
  consistent ths qs gq gt ->
  ths !! t = Some th ->
  consistent
    (<[t := {| th_queue := th_queue th; th_pending := [];
               th_alive := false |}]> ths) qs gq gt.
Proof.
  intros (Hgq & Hq & Hinj & Hpend & Hcnt) Ht.
  split_and!; try assumption.
  - intros t0 th0 Ht0.
    apply list_lookup_insert_Some in Ht0 as [(-> & <- & _)|[_ Ht0]];
      simpl; eauto.
  - intros t1 t2 th1 th2 H1 H2 He.
    apply list_lookup_insert_Some in H1 as [(-> & <- & _)|[Hn1 H1]];
      apply list_lookup_insert_Some in H2 as [(-> & <- & _)|[Hn2 H2]];
      simpl in He; eauto.
  - intros t0 th0 Ht0 Hne0.
    apply list_lookup_insert_Some in Ht0 as [(-> & <- & _)|[Hn0 Ht0]];
      simpl in *; [contradiction|eauto].
Qed.

(** When the guard of [load_map_markers] lets a load through, no thread
    has anything left to put. *)
Lemma guard_passed (s : state) (t : nat) (th : thread) :
  invariant s ->
  thread_is_alive s = false ->
  threads s !! t = Some th ->
  th_pending th = [].
Proof.
  intros (_ & _ & _ & Hpend & _) Ha Ht.
  destruct (th_pending th) as [|it rest] eqn:Hp; [reflexivity|].
  destruct (Hpend t th Ht) as (Halive & Hcur & _); [rewrite Hp; discriminate|].
  unfold thread_is_alive in Ha. rewrite Hcur, Ht, Halive in Ha. discriminate.
Qed.

(** Starting a thread on a fresh queue, when no other thread has anything
    left to put, keeps the invariant, however many of its items the new
    thread has put on that queue already. *)
Lemma consistent_start (ths : list thread) (qs : list (list item)) (gq : nat)
    (gt : option nat) (new : thread) (early : list item) :
  consistent ths qs gq gt ->
  (forall t th, ths !! t = Some th -> th_pending th = []) ->
  th_queue new = length qs ->
  th_alive new = true ->
  (exists evs,
     early ++ th_pending new = evs ++ [finished] /\ finished ∉ evs) ->
  consistent (ths ++ [new]) (qs ++ [early]) (length qs) (Some (length ths)).
Proof.
  intros (Hgq & Hq & Hinj & Hpend & Hcnt) Hidle Hnq Hna (evs & Hshape & Hevs).
  split_and!.
  - rewrite length_app. simpl. lia.
  - intros t th Ht. rewrite length_app. simpl.
    apply lookup_snoc_Some in Ht as [[_ Ht]|[_ <-]]; [|lia].
    specialize (Hq t th Ht). lia.
  - intros t1 t2 th1 th2 H1 H2 He.
    apply lookup_snoc_Some in H1 as [[L1 H1]|[-> <-]];
      apply lookup_snoc_Some in H2 as [[L2 H2]|[-> <-]]; eauto.
    + specialize (Hq t1 th1 H1). lia.
    + specialize (Hq t2 th2 H2). lia.
  - intros t th Ht Hne.
    apply lookup_snoc_Some in Ht as [[_ Ht]|[-> <-]].
    + specialize (Hidle t th Ht). contradiction.
    + destruct (th_pending new) as [|x r] eqn:Hp using rev_ind;
        [contradiction|]. clear IHr.
      rewrite app_assoc in Hshape. apply app_inj_tail in Hshape as [He ->].
      split_and!; try done.
      * exists r. split; [reflexivity|].
        intros Hin. apply Hevs. rewrite <- He. apply elem_of_app. auto.
      * intros items. rewrite Hnq, list_lookup_middle by reflexivity.
        intros [= <-] Hin. apply Hevs. rewrite <- He.
        apply elem_of_app. auto.
  - intros q items Hqi.
    apply lookup_snoc_Some in Hqi as [[_ Hqi]|[_ <-]]; [eauto|].
    assert (H : count_finished (early ++ th_pending new) = 1).
    { rewrite Hshape, count_finished_app, (count_finished_none evs Hevs).
      reflexivity. }
    rewrite count_finished_app in H. lia.
Qed.

Lemma invariant_step (s s' : state) :
  invariant s -> step s s' -> invariant s'.
Proof.
  intros Hinv Hstep.
  destruct Hstep as [u le s|u s Hsched|s|t s|t s|s s' Hth Hqs Hgq Hgt].
  - destruct (load_cases u le s)
      as [(msg & -> & _)|[(_ & Hth & Hqs & Hgq & Hgt)
                         |(Ha & s2 & -> & Hth & Hqs & Hgq & Hgt)]].
    + unfold invariant.
      destruct (update_status_objects msg s) as (-> & -> & -> & -> & _).
      exact Hinv.
    + unfold invariant. rewrite Hth, Hqs, Hgq, Hgt. exact Hinv.
    + assert (Hinv2 : invariant s2).
      { unfold invariant. rewrite Hth, Hqs, Hgq, Hgt.
        apply consistent_start with (gq := geocoding_queue s)
                                    (gt := geocoding_thread s).
        * exact Hinv.
        * intros t th. apply guard_passed; assumption.
        * reflexivity.
        * reflexivity.
        * simpl. unfold early_items. rewrite take_drop.
          apply thread_items_shape. }
      destruct (process_results_spec u s2)
        as (Hth' & Hgq' & _ & _ & (rest & Hsuf & _ & Hqs') & Hgt' & _).
      unfold invariant. rewrite Hth', Hgq', Hqs'.
      apply consistent_drain with (gt := geocoding_thread s2);
        [exact Hinv2|exact Hsuf|exact Hgt'].
  - set (s0 := set_after_scheduled (pred (after_scheduled s)) s).
    destruct (process_results_spec u s0)
      as (Hth & Hgq & _ & _ & (rest & Hsuf & _ & Hqs) & Hgt & _).
    unfold invariant. rewrite Hth, Hgq, Hqs.
    apply consistent_drain with (gt := geocoding_thread s0);
      [exact Hinv|exact Hsuf|exact Hgt].
  - exact Hinv.
  - unfold thread_put. destruct (threads s !! t) as [th|] eqn:Ht; [|exact Hinv].
    destruct (th_alive th); [|exact Hinv].
    destruct (th_pending th) as [|it rest] eqn:Hp; [exact Hinv|].
    unfold invariant. simpl. eapply consistent_put; eassumption.
  - unfold thread_exit. destruct (threads s !! t) as [th|] eqn:Ht; [|exact Hinv].
    destruct (th_pending th) as [|it rest] eqn:Hp; [|exact Hinv].
    unfold invariant. simpl. eapply consistent_exit; eassumption.
  - unfold invariant. rewrite Hth, Hqs, Hgq, Hgt. exact Hinv.
Qed.

Lemma invariant_initial : invariant initial.
Proof.
  split_and!.
  - simpl. lia.
  - intros t th Ht. discriminate.
  - intros t1 t2 th1 th2 Ht. discriminate.
  - intros t th Ht. discriminate.
  - intros [|q] items; [|discriminate]. intros [= <-].
    unfold count_finished. simpl. lia.
Qed.

Lemma invariant_reachable (s : state) : reachable s -> invariant s.
Proof.
  induction 1 as [|s s' _ IH Hstep];
    [apply invariant_initial|eapply invariant_step; eassumption].
Qed.

Lemma batch_active_true (th : thread) :
  batch_active th = true -> th_alive th = true /\ th_pending th <> [].
Proof.
  unfold batch_active. intros H. apply andb_true_iff in H as [Ha Hp].
  split; [assumption|]. apply negb_true_iff, bool_decide_eq_false in Hp.
  assumption.
Qed.

(** A list in which the elements that satisfy [p] all sit at one index has
    at most one of them. *)
Lemma filter_at_most_one {A : Type} (p : A -> bool) (l : list A) :
  (forall i j x y,
     l !! i = Some x -> l !! j = Some y -> p x = true -> p y = true ->
     i = j) ->
  length (List.filter p l) <= 1.
Proof.
  induction l as [|x l IH]; intros Huniq; simpl; [lia|].
  destruct (p x) eqn:Hpx.
  - assert (Hnone : List.filter p l = []).
    { clear IH. induction l as [|y l IHl]; [reflexivity|]. simpl.
      destruct (p y) eqn:Hpy.
      - specialize (Huniq 0 1 x y eq_refl eq_refl Hpx Hpy). discriminate.
      - apply IHl. intros i j a b Hi Hj Ha Hb.
        destruct i as [|i], j as [|j]; simpl in *; try reflexivity.
        + specialize (Huniq 0 (S (S j)) a b Hi Hj Ha Hb). discriminate.
        + specialize (Huniq (S (S i)) 0 a b Hi Hj Ha Hb). discriminate.
        + specialize (Huniq (S (S i)) (S (S j)) a b Hi Hj Ha Hb).
          congruence. }
    simpl. rewrite Hnone. simpl. lia.
  - apply IH. intros i j a b Hi Hj Ha Hb.
    specialize (Huniq (S i) (S j) a b Hi Hj Ha Hb). congruence.
Qed.

(** C6. In every state the program reaches at most one thread has a batch
    under way, and no queue holds more than one [finished]; a thread whose
    batch is under way is the one the guard of [load_map_markers] sees
    alive; and a call of [load_map_markers] that sees a thread alive only
    sets the status text: markers, counters, threads, queues and the
    references to them stay as they are, so no thread is started and no
    further [finished] will be put. *)
Theorem one_batch_at_a_time (s : state) :
  reachable s ->
  active_batches s <= 1
  /\ (forall q items, queues s !! q = Some items -> count_finished items <= 1)
  /\ (forall t th,
        threads s !! t = Some th -> batch_active th = true ->
        thread_is_alive s = true)
  /\ (forall (u : ui_env) (le : load_env),
        thread_is_alive s = true ->
        (exists msg, load_map_markers u le s = update_status msg s)
        /\ threads (load_map_markers u le s) = threads s
        /\ queues (load_map_markers u le s) = queues s
        /\ geocoding_queue (load_map_markers u le s) = geocoding_queue s
        /\ geocoding_thread (load_map_markers u le s) = geocoding_thread s
        /\ map_markers (load_map_markers u le s) = map_markers s
        /\ canvas_markers (load_map_markers u le s) = canvas_markers s
        /\ geolocated_count (load_map_markers u le s) = geolocated_count s
        /\ skipped_count (load_map_markers u le s) = skipped_count s
        /\ active_batches (load_map_markers u le s) = active_batches s).
Proof.
  intros Hreach. pose proof (invariant_reachable s Hreach) as Hinv.
  destruct Hinv as (Hgq & Hq & Hinj & Hpend & Hcnt).
  split_and!.
  - apply filter_at_most_one. intros i j x y Hi Hj Hx Hy.
    apply batch_active_true in Hx as [_ Hx], Hy as [_ Hy].
    destruct (Hpend i x Hi Hx) as (_ & Hci & _).
    destruct (Hpend j y Hj Hy) as (_ & Hcj & _).
    congruence.
  - exact Hcnt.
  - intros t th Ht Hact. apply batch_active_true in Hact as [Ha Hp].
    destruct (Hpend t th Ht Hp) as (_ & Hcur & _).
    unfold thread_is_alive. rewrite Hcur, Ht. exact Ha.
  - intros u le Halive.
    assert (Hload : exists msg, load_map_markers u le s = update_status msg s).
    { unfold load_map_markers. rewrite Halive.
      destruct (map_widget s); simpl; eauto. }
    destruct Hload as [msg Hload]. unfold active_batches. rewrite Hload.
    destruct (update_status_objects msg s)
      as (-> & -> & -> & -> & -> & -> & -> & ->).
    split_and!; eauto.
Qed.

Lemma one_batch_at_a_time_witness :
  active_batches jackson_loaded <= 1
  /\ (forall q items,
        queues jackson_loaded !! q = Some items -> count_finished items <= 1)
  /\ (forall t th,
        threads jackson_loaded !! t = Some th -> batch_active th = true ->
        thread_is_alive jackson_loaded = true)
  /\ (forall (u : ui_env) (le : load_env),
        thread_is_alive jackson_loaded = true ->
        (exists msg,
           load_map_markers u le jackson_loaded
           = update_status msg jackson_loaded)
        /\ threads (load_map_markers u le jackson_loaded)
           = threads jackson_loaded
        /\ queues (load_map_markers u le jackson_loaded)
           = queues jackson_loaded
        /\ geocoding_queue (load_map_markers u le jackson_loaded)
           = geocoding_queue jackson_loaded
        /\ geocoding_thread (load_map_markers u le jackson_loaded)
           = geocoding_thread jackson_loaded
        /\ map_markers (load_map_markers u le jackson_loaded)
           = map_markers jackson_loaded
        /\ canvas_markers (load_map_markers u le jackson_loaded)
           = canvas_markers jackson_loaded
        /\ geolocated_count (load_map_markers u le jackson_loaded)
           = geolocated_count jackson_loaded
        /\ skipped_count (load_map_markers u le jackson_loaded)
           = skipped_count jackson_loaded
        /\ active_batches (load_map_markers u le jackson_loaded)
           = active_batches jackson_loaded).
Proof.
  apply (one_batch_at_a_time jackson_loaded).
  apply (reachable_step initial); [apply reachable_initial|].
  apply step_load.
Defined.

End Lifecycle.

(** ** The geocache functions on their own *)

Module GeocacheFacts.
Import Worker.

(** X1. For coordinates that the column stores as written, neither NaN
    nor negative zero: a write that does not fail returns [True], and a
    read of the same key that does not fail then returns exactly the
    coordinates written; reads of every other key return what they
    returned before; writing the same key again replaces the row, so that
    the table is the one the last write alone would have left. Neither
    function puts anything on the queue, calls the geocoder or sleeps. *)
Theorem geocache_write_then_read (ts ts' : string) (key : string)
    (lat lon lat' lon' : float) (w : world) :
  stored_as_written lat = true ->
  stored_as_written lon = true ->
  stored_as_written lat' = true ->
  stored_as_written lon' = true ->
  let w1 := (add_cached_location_db None ts key lat lon w).2 in
  let w2 := (add_cached_location_db None ts' key lat' lon' w1).2 in
  add_cached_location_db None ts key lat lon w = (Return true, w1)
  /\ get_cached_location_db None key w1 = (Return (Some (lat, lon)), w1)
  /\ (forall key', key' <> key ->
        (get_cached_location_db None key' w1).1
        = (get_cached_location_db None key' w).1)
  /\ history w1 = history w
  /\ dom (geocache w1) = {[key]} ∪ dom (geocache w)
  /\ get_cached_location_db None key w2 = (Return (Some (lat', lon')), w2)
  /\ w2 = (add_cached_location_db None ts' key lat' lon' w).2.
Proof.
  intros _ _ _ _.
  unfold add_cached_location_db, get_cached_location_db, try_except, bind,
    execute_replace, execute_select, ret, set_geocache. simpl.
  split_and!.
  - reflexivity.
  - rewrite lookup_insert_eq. reflexivity.
  - intros key' Hne. rewrite lookup_insert_ne by congruence.
    destruct (geocache w !! key'); reflexivity.
  - reflexivity.
  - apply dom_insert_L.
  - rewrite lookup_insert_eq. reflexivity.
  - rewrite insert_insert_eq. reflexivity.
Qed.

Lemma geocache_write_then_read_witness :
  (get_cached_location_db None "Oxford|MS"
     (add_cached_location_db None "2025-01-01 00:00:00" "Jackson|MS" 1 2
        Scenarios.fresh_world).2).1
  = (get_cached_location_db None "Oxford|MS" Scenarios.fresh_world).1.
Proof.
  apply (geocache_write_then_read "2025-01-01 00:00:00" "" "Jackson|MS"
           1 2 1 2 Scenarios.fresh_world);
    [reflexivity..|discriminate].
Defined.

(** X2. Neither function ever raises. A read returns [None] for a key
    that is not in the table and when sqlite3 fails, and never changes the
    table; a write that fails returns [False] and leaves the table as it
    was. *)
Theorem geocache_failures_contained :
  (forall (err : option string) (key : string) (w : world),
     exists r,
       get_cached_location_db err key w = (Return r, w)
       /\ (geocache w !! key = None -> r = None)
       /\ (is_Some err -> r = None)
       /\ (err = None ->
           r = (fun x => (latitude x, longitude x)) <$> geocache w !! key))
  /\ (forall (err : option string) (ts key : string) (lat lon : float)
        (w : world),
        exists b w',
          add_cached_location_db err ts key lat lon w = (Return b, w')
          /\ (is_Some err -> b = false /\ w' = w)
          /\ (err = None -> b = true)).
Proof.
  split.
  - intros err key w.
    unfold get_cached_location_db, try_except, bind, execute_select, ret.
    destruct err as [msg|].
    + exists None. split_and!; try done.
    + destruct (geocache w !! key) as [r|] eqn:Hr.
      * eexists. split_and!; try done; try (intros [? [=]]).
      * exists None. split_and!; done.
  - intros err ts key lat lon w.
    unfold add_cached_location_db, try_except, bind, execute_replace, ret.
    destruct err as [msg|].
    + exists false, w. split_and!; try done.
    + eexists true, _. split_and!; try done; try (intros [? [=]]).
Qed.

Lemma geocache_failures_contained_witness :
  exists r,
    get_cached_location_db (Some "disk I/O error"%string) "Jackson|MS"
      Scenarios.fresh_world = (Return r, Scenarios.fresh_world)
    /\ r = None.
Proof.
  destruct (proj1 geocache_failures_contained (Some "disk I/O error"%string)
              "Jackson|MS"%string Scenarios.fresh_world)
    as (r & Hr & _ & Herr & _).
  exists r. split; [exact Hr|]. apply Herr. eexists. reflexivity.
Defined.

End GeocacheFacts.

(** ** The effects of a batch as a whole *)

Module BatchFacts.
Import Worker Trace WorkerFacts.

(** The three ways one iteration can go. *)
Lemma loop_body_shape (e : env) (index : nat) (city state : string)
    (w : world) :
  (root_running e index = false
   /\ loop_body e index (city, state) w = (Return break_loop, w))
  \/ (root_running e index = true
      /\ exists r,
          select_error e index = None
          /\ geocache w !! cache_key city state = Some r
          /\ loop_body e index (city, state) w
             = (Return next_iteration,
                record_effect
                  (queue_put
                     (success_cached city state (latitude r) (longitude r)))
                  w))
  \/ (root_running e index = true
      /\ cached_coords e index (cache_key city state) w = None
      /\ loop_body e index (city, state) w
         = (Return next_iteration,
            {| geocache := miss_geocache e index city state (geocache w);
               history :=
                 history w
                 ++ [nominatim_geocode (query_string city state) 10;
                     queue_put (miss_item e index city state);
                     time_sleep (11 # 10)] |})).
Proof.
  destruct (root_running e index) eqn:Hrun;
    [|left; split; [reflexivity|apply loop_body_stopped; assumption]].
  right.
  destruct (cached_coords e index (cache_key city state) w)
    as [[lat lon]|] eqn:Hc.
  - left. split; [reflexivity|].
    pose proof (loop_body_hit e index city state lat lon w Hrun Hc) as Hb.
    unfold cached_coords in Hc.
    destruct (select_error e index); [discriminate|].
    destruct (geocache w !! cache_key city state) as [r|]; [|discriminate].
    injection Hc as <- <-. exists r. split_and!; done.
  - right. split_and!; [reflexivity..|].
    apply loop_body_miss; assumption.
Qed.

(** Induction over the iterations of the loop. *)
Lemma for_each_rel (e : env)
    (P : nat -> list location -> world -> world -> Prop) :
  (forall i w, P i [] w w) ->
  (forall i l rest w, root_running e i = false -> P i (l :: rest) w w) ->
  (forall i city state rest w w1 w',
     root_running e i = true ->
     loop_body e i (city, state) w = (Return next_iteration, w1) ->
     for_each e (S i) rest w1 = (Return tt, w') ->
     P (S i) rest w1 w' ->
     P i ((city, state) :: rest) w w') ->
  forall locations i w,
  exists w', for_each e i locations w = (Return tt, w') /\ P i locations w w'.
Proof.
  intros Hnil Hstop Hnext.
  induction locations as [|[city state] rest IH]; intros i w.
  - exists w. split; [reflexivity|apply Hnil].
  - rewrite for_each_cons.
    destruct (loop_body_cases e i city state w)
      as [[Hrun Hb]|[Hrun (it & w1 & Hb & _)]]; rewrite Hb.
    + exists w. split; [reflexivity|apply Hstop; assumption].
    + destruct (IH (S i) w1) as (w' & Hf & HP).
      exists w'. split; [assumption|]. eapply Hnext; eassumption.
Qed.

Lemma thread_result (e : env) (locations : list location) (w w' : world) :
  for_each e 0 locations w = (Return tt, w') ->
  _geocode_locations_in_thread e locations w
  = (Return tt, record_effect (queue_put finished) w').
Proof.
  intros Hf. unfold _geocode_locations_in_thread, bind. rewrite Hf.
  reflexivity.
Qed.

Lemma throttled_app (a b : list effect) :
  throttled a = true -> throttled b = true -> throttled (a ++ b) = true.
Proof.
  remember (length a) as n eqn:Hn. revert a Hn.
  induction n as [n IH] using lt_wf_ind. intros a Hn Ha Hb.
  destruct a as [|[q t|it|d] r]; simpl in *; try assumption;
    try discriminate.
  - destruct r as [|[q' t'|it|d] r]; try discriminate.
    destruct r as [|[q' t'|it'|d] r]; try discriminate.
    simpl in *. apply andb_true_iff in Ha as [Hd Hr].
    rewrite Hd. simpl. apply (IH (length r)); [lia|reflexivity|assumption..].
  - apply (IH (length r)); [lia|reflexivity|assumption..].
Qed.

(** X3. Whatever the outside does, a run keeps the throttle: each call of
    the geocoder is followed by the put of one item and then by a sleep of
    at least 1.1 seconds before the thread does anything else, and the
    thread never sleeps otherwise. *)
Theorem run_is_throttled (e : env) (locations : list location) (w : world) :
  throttled (history w) = true ->
  throttled (history (_geocode_locations_in_thread e locations w).2) = true.
Proof.
  intros Hw.
  destruct (for_each_rel e
              (fun _ _ w w' =>
                 throttled (history w) = true -> throttled (history w') = true))
    with (locations := locations) (i := 0) (w := w) as (w' & Hf & HP).
  - auto.
  - auto.
  - intros i city state rest w0 w1 w2 Hrun Hb _ IH H0. apply IH.
    destruct (loop_body_shape e i city state w0)
      as [[Hstop _]|[(_ & r & _ & _ & Hb')|(_ & _ & Hb')]];
      [congruence| |]; rewrite Hb' in Hb; injection Hb as <-; simpl;
      apply throttled_app; auto.
  - rewrite (thread_result e locations w w' Hf). simpl.
    apply throttled_app; auto.
Qed.

Lemma run_is_throttled_witness :
  throttled
    (history
       (_geocode_locations_in_thread
          (Scenarios.replying_env Scenarios.second_times_out)
          Scenarios.five_locations Scenarios.fresh_world).2) = true.
Proof.
  apply (run_is_throttled (Scenarios.replying_env Scenarios.second_times_out)
           Scenarios.five_locations Scenarios.fresh_world).
  reflexivity.
Defined.

Lemma geocoder_calls_app (a b : list effect) :
  geocoder_calls (a ++ b) = geocoder_calls a ++ geocoder_calls b.
Proof.
  induction a as [|[] a IH]; simpl; rewrite ?IH; reflexivity.
Qed.

(** X4. The requests a run makes to Nominatim are requests for locations
    of its list, in the order of the list and at most one for each location
    it processes, each with the query "city, state, USA" and a timeout of
    10 seconds; nothing else is ever asked. *)
Theorem requests_follow_the_list (e : env) (locations : list location)
    (w : world) :
  exists calls,
    geocoder_calls (history (_geocode_locations_in_thread e locations w).2)
    = geocoder_calls (history w) ++ calls
    /\ calls `sublist_of`
         (request_of <$> take (processed e 0 locations) locations)
    /\ length calls <= processed e 0 locations
    /\ processed e 0 locations <= length locations.
Proof.
  destruct (for_each_rel e
              (fun i locs w w' =>
                 exists calls,
                   geocoder_calls (history w')
                   = geocoder_calls (history w) ++ calls
                   /\ calls `sublist_of`
                        (request_of <$> take (processed e i locs) locs)
                   /\ processed e i locs <= length locs))
    with (locations := locations) (i := 0) (w := w) as (w' & Hf & HP).
  - intros i w0. exists []. rewrite app_nil_r. split_and!; done.
  - intros i l rest w0 Hstop. exists []. simpl. rewrite Hstop, app_nil_r.
    split_and!; [done..|lia].
  - intros i city state rest w0 w1 w2 Hrun Hb _ (calls & Hc & Hsub & Hle).
    simpl. rewrite Hrun. simpl.
    destruct (loop_body_shape e i city state w0)
      as [[Hstop _]|[(_ & r & _ & _ & Hb')|(_ & _ & Hb')]];
      [congruence| |]; rewrite Hb' in Hb; injection Hb as <-; simpl in Hc;
      rewrite geocoder_calls_app in Hc; simpl in Hc.
    + exists calls. rewrite app_nil_r in Hc.
      split_and!; [assumption|apply sublist_cons; assumption|lia].
    + exists ((query_string city state, 10) :: calls).
      rewrite <- app_assoc in Hc.
      split_and!; [assumption|apply sublist_skip; assumption|lia].
  - destruct HP as (calls & Hc & Hsub & Hle). exists calls.
    rewrite (thread_result e locations w w' Hf). simpl.
    rewrite geocoder_calls_app. simpl. rewrite app_nil_r.
    split_and!; try assumption.
    apply sublist_length in Hsub.
    rewrite length_fmap, length_take in Hsub. lia.
Qed.

Lemma miss_geocache_other (e : env) (index : nat) (city state : string)
    (g : gmap string row) (k : string) :
  cache_key city state <> k ->
  miss_geocache e index city state g !! k = g !! k.
Proof.
  intros Hne. unfold miss_geocache.
  destruct (geocode e index (query_string city state)) as [? ?| |?];
    try destruct (replace_error e index); try reflexivity.
  apply lookup_insert_ne. assumption.
Qed.

(** What one iteration does to the row of a key that is not its own:
    nothing. *)
Lemma loop_body_other_key (e : env) (index : nat) (city state : string)
    (w w' : world) (f : flow) (k : string) :
  loop_body e index (city, state) w = (Return f, w') ->
  cache_key city state <> k ->
  geocache w' !! k = geocache w !! k.
Proof.
  intros Hb Hne.
  destruct (loop_body_shape e index city state w)
    as [[_ Hb']|[(_ & r & _ & _ & Hb')|(_ & _ & Hb')]];
    rewrite Hb' in Hb; injection Hb as _ <-; try reflexivity.
  simpl. apply miss_geocache_other. assumption.
Qed.

Lemma for_each_other_key (e : env) (k : string) (locations : list location) :
  forall (i : nat) (w : world),
  (forall l, l ∈ locations -> cache_key l.1 l.2 <> k) ->
  geocache (for_each e i locations w).2 !! k = geocache w !! k.
Proof.
  intros i w.
  destruct (for_each_rel e
              (fun _ locs w w' =>
                 (forall l, l ∈ locs -> cache_key l.1 l.2 <> k) ->
                 geocache w' !! k = geocache w !! k))
    with (locations := locations) (i := i) (w := w) as (w' & Hf & HP).
  - auto.
  - auto.
  - intros j city state rest w0 w1 w2 _ Hb _ IH Hall.
    rewrite IH by (intros l Hl; apply Hall, list_elem_of_further, Hl).
    eapply loop_body_other_key; [eassumption|].
    apply (Hall (city, state)), list_elem_of_here.
  - rewrite Hf. exact HP.
Qed.

(** X5. A run never removes a row from the table, and the rows it writes
    are under keys of its own locations: the row of any other key is what
    it was before the run. *)
Theorem run_writes_only_its_keys (e : env) (locations : list location)
    (w : world) (k : string) :
  (forall l, l ∈ locations -> cache_key l.1 l.2 <> k) ->
  geocache (_geocode_locations_in_thread e locations w).2 !! k
  = geocache w !! k
  /\ dom (geocache w)
     ⊆ dom (geocache (_geocode_locations_in_thread e locations w).2).
Proof.
  intros Hall.
  destruct (thread_spec e locations w) as (evs & w' & Hf & _ & _ & Hd).
  split; [|rewrite Hf; exact Hd].
  pose proof (for_each_other_key e k locations 0 w Hall) as Hk.
  destruct (for_each_spec e locations 0 w) as (evs' & w1 & Hf1 & _).
  rewrite (thread_result e locations w w1 Hf1). rewrite Hf1 in Hk.
  exact Hk.
Qed.

Lemma run_writes_only_its_keys_witness :
  geocache
    (_geocode_locations_in_thread
       (Scenarios.locating_env (fun _ => false) 3 4)
       Scenarios.five_locations
       (add_cached_location_db None "2024-12-31 08:00:00" "Laurel|MS" 1 2
          Scenarios.fresh_world).2).2 !! "Laurel|MS"
  = geocache
      (add_cached_location_db None "2024-12-31 08:00:00" "Laurel|MS" 1 2
         Scenarios.fresh_world).2 !! "Laurel|MS".
Proof.
  apply (run_writes_only_its_keys
           (Scenarios.locating_env (fun _ => false) 3 4)
           Scenarios.five_locations
           (add_cached_location_db None "2024-12-31 08:00:00" "Laurel|MS" 1 2
              Scenarios.fresh_world).2 "Laurel|MS").
  intros l Hl. unfold Scenarios.five_locations in Hl.
  repeat (apply elem_of_cons in Hl as [->|Hl]; [discriminate|]).
  apply elem_of_nil in Hl. contradiction.
Defined.

(** X6. When the key of every location is in the table, no lookup fails
    and the stop flag stays clear, the run answers every location from the
    table, with the coordinates of its row: it calls the geocoder for none,
    never sleeps, and leaves the table as it was. *)
Theorem warm_cache_run (e : env) (locations : list location) (w : world) :
  (forall l, l ∈ locations -> cache_key l.1 l.2 ∈ dom (geocache w)) ->
  (forall i, i < length locations ->
             root_running e i = true /\ select_error e i = None) ->
  exists evs,
    history (_geocode_locations_in_thread e locations w).2
    = history w ++ (queue_put <$> evs) ++ [queue_put finished]
    /\ Forall2 (cached_item (geocache w)) locations evs
    /\ geocache (_geocode_locations_in_thread e locations w).2 = geocache w.
Proof.
  intros Hkeys Henv.
  destruct (for_each_rel e
              (fun i locs w w' =>
                 (forall l, l ∈ locs -> cache_key l.1 l.2 ∈ dom (geocache w)) ->
                 (forall j, j < length locs ->
                            root_running e (i + j) = true
                            /\ select_error e (i + j) = None) ->
                 exists evs,
                   history w' = history w ++ (queue_put <$> evs)
                   /\ Forall2 (cached_item (geocache w)) locs evs
                   /\ geocache w' = geocache w))
    with (locations := locations) (i := 0) (w := w) as (w' & Hf & HP).
  - intros i w0 _ _. exists []. simpl. rewrite app_nil_r.
    split_and!; [done|constructor|done].
  - intros i l rest w0 Hstop _ Hrun.
    destruct (Hrun 0) as [Hr _]; [simpl; lia|].
    rewrite Nat.add_0_r in Hr. congruence.
  - intros i city state rest w0 w1 w2 _ Hb _ IH Hin Hrun.
    destruct (Hrun 0) as [_ Hsel]; [simpl; lia|].
    rewrite Nat.add_0_r in Hsel.
    destruct (loop_body_shape e i city state w0)
      as [[Hstop _]|[(_ & r & _ & Hr & Hb')|(_ & Hmiss & _)]].
    + destruct (Hrun 0) as [Hr _]; [simpl; lia|].
      rewrite Nat.add_0_r in Hr. congruence.
    + rewrite Hb' in Hb. injection Hb as <-.
      destruct IH as (evs & Hh & Hall & Hg).
      * intros l Hl. simpl. apply Hin, list_elem_of_further, Hl.
      * intros j Hj. replace (S i + j) with (i + S j) by lia.
        apply Hrun. simpl. lia.
      * exists (success_cached city state (latitude r) (longitude r) :: evs).
        rewrite Hh. simpl. rewrite <- app_assoc.
        split_and!; [done| |done].
        constructor; [exists r; done|exact Hall].
    + specialize (Hin (city, state) (list_elem_of_here _ _)).
      apply elem_of_dom in Hin as [r Hr]. unfold cached_coords in Hmiss.
      simpl in Hr. rewrite Hsel, Hr in Hmiss. discriminate.
  - destruct (HP Hkeys Henv) as (evs & Hh & Hall & Hg). exists evs.
    rewrite (thread_result e locations w w' Hf). simpl.
    rewrite Hh, <- app_assoc. split_and!; done.
Qed.

Lemma warm_cache_run_witness :
  exists evs,
    history
      (_geocode_locations_in_thread
         (Scenarios.locating_env (fun _ => false) 3 4)
         [("Jackson", "MS")%string]
         (add_cached_location_db None "2024-12-31 08:00:00" "Jackson|MS" 1 2
            Scenarios.fresh_world).2).2
    = history
        (add_cached_location_db None "2024-12-31 08:00:00" "Jackson|MS" 1 2
           Scenarios.fresh_world).2
      ++ (queue_put <$> evs) ++ [queue_put finished]
    /\ Forall2
         (cached_item
            (geocache
               (add_cached_location_db None "2024-12-31 08:00:00"
                  "Jackson|MS" 1 2 Scenarios.fresh_world).2))
         [("Jackson", "MS")%string] evs
    /\ geocache
         (_geocode_locations_in_thread
            (Scenarios.locating_env (fun _ => false) 3 4)
            [("Jackson", "MS")%string]
            (add_cached_location_db None "2024-12-31 08:00:00" "Jackson|MS"
               1 2 Scenarios.fresh_world).2).2
       = geocache
           (add_cached_location_db None "2024-12-31 08:00:00" "Jackson|MS"
              1 2 Scenarios.fresh_world).2.
Proof.
  apply (warm_cache_run (Scenarios.locating_env (fun _ => false) 3 4)
           [("Jackson", "MS")%string]
           (add_cached_location_db None "2024-12-31 08:00:00" "Jackson|MS" 1 2
              Scenarios.fresh_world).2).
  - intros l Hl. apply list_elem_of_singleton in Hl as ->.
    apply elem_of_dom. eexists. reflexivity.
  - intros i _. split; reflexivity.
Defined.

(** The items a loop has put split at the item of its first iteration. *)
Lemma queue_split (e : env) (i : nat) (city state : string)
    (rest : list location) (w w1 w' : world) (evs : list item) :
  root_running e i = true ->
  loop_body e i (city, state) w = (Return next_iteration, w1) ->
  for_each e (S i) rest w1 = (Return tt, w') ->
  result_queue w' = result_queue w ++ evs ->
  exists it evs',
    evs = it :: evs'
    /\ result_queue w1 = result_queue w ++ [it]
    /\ result_queue w' = result_queue w1 ++ evs'.
Proof.
  intros Hrun Hb Hf Hq.
  destruct (loop_body_cases e i city state w)
    as [[Hstop _]|[_ (it & w1' & Hb' & Hq1 & _)]]; [congruence|].
  rewrite Hb' in Hb. injection Hb as ->.
  destruct (for_each_spec e rest (S i) w1) as (evs' & w'' & Hf' & Hq' & _).
  rewrite Hf' in Hf. injection Hf as ->.
  exists it, evs'. split_and!; try assumption.
  rewrite Hq', Hq1, <- app_assoc in Hq. apply app_inv_head in Hq.
  symmetry. exact Hq.
Qed.

(** In a list whose keys are pairwise distinct, a [success_geocoded] item
    whose write did not fail leaves its coordinates in the table to the end
    of the loop. *)
Lemma for_each_geocoded_row (e : env) (locations : list location) :
  forall (i : nat) (w : world),
  NoDup (key_of <$> locations) ->
  forall (evs : list item) (j : nat) (city state : string) (lat lon : float),
  result_queue (for_each e i locations w).2 = result_queue w ++ evs ->
  evs !! j = Some (success_geocoded city state lat lon) ->
  replace_error e (i + j) = None ->
  geocache (for_each e i locations w).2 !! cache_key city state
  = Some {| latitude := lat; longitude := lon;
            last_accessed := now e (i + j) |}.
Proof.
  intros i w.
  destruct (for_each_rel e
              (fun i locs w w' =>
                 NoDup (key_of <$> locs) ->
                 forall evs j city state lat lon,
                 result_queue w' = result_queue w ++ evs ->
                 evs !! j = Some (success_geocoded city state lat lon) ->
                 replace_error e (i + j) = None ->
                 geocache w' !! cache_key city state
                 = Some {| latitude := lat; longitude := lon;
                           last_accessed := now e (i + j) |}))
    with (locations := locations) (i := i) (w := w) as (w' & Hf & HP).
  - intros i0 w0 _ evs j city state lat lon Hq Hj.
    rewrite <- (app_nil_r (result_queue w0)) in Hq at 1.
    apply app_inv_head in Hq. subst evs. discriminate.
  - intros i0 l rest w0 _ _ evs j city state lat lon Hq Hj.
    rewrite <- (app_nil_r (result_queue w0)) in Hq at 1.
    apply app_inv_head in Hq. subst evs. discriminate.
  - intros i0 c s rest w0 w1 w2 Hrun Hb Hfr IH Hnd evs j city state lat lon
      Hq Hj Hrep.
    destruct (queue_split e i0 c s rest w0 w1 w2 evs Hrun Hb Hfr Hq)
      as (it & evs' & -> & Hq1 & Hq2).
    rewrite fmap_cons in Hnd. apply NoDup_cons in Hnd as [Hnin Hnd].
    destruct j as [|j]; simpl in Hj.
    + injection Hj as ->. rewrite Nat.add_0_r in Hrep |- *.
      destruct (loop_body_geocoded e i0 (c, s) city state lat lon w0 w1 _
                  Hrun Hb Hq1 Hrep) as [[= -> ->] Hrow].
      rewrite <- Hrow.
      pose proof (for_each_other_key e (cache_key city state) rest (S i0) w1)
        as Hk.
      rewrite Hfr in Hk. apply Hk. intros l Hl He. apply Hnin.
      apply list_elem_of_fmap. exists l. split; [|assumption].
      unfold key_of. simpl. congruence.
    + replace (i0 + S j) with (S i0 + j) in * by lia.
      eapply IH; eassumption.
  - rewrite Hf. exact HP.
Qed.

(** In a list whose keys are pairwise distinct, a location whose row is in
    the table, reached before any stop and looked up without failure, is
    answered with the coordinates of that row. *)
Lemma for_each_cached_row (e : env) (locations : list location) :
  forall (i : nat) (w : world),
  NoDup (key_of <$> locations) ->
  forall (evs : list item) (j : nat) (city state : string) (r : row),
  locations !! j = Some (city, state) ->
  (forall k, k <= j -> root_running e (i + k) = true) ->
  select_error e (i + j) = None ->
  geocache w !! cache_key city state = Some r ->
  result_queue (for_each e i locations w).2 = result_queue w ++ evs ->
  evs !! j = Some (success_cached city state (latitude r) (longitude r)).
Proof.
  intros i w.
  destruct (for_each_rel e
              (fun i locs w w' =>
                 NoDup (key_of <$> locs) ->
                 forall evs j city state r,
                 locs !! j = Some (city, state) ->
                 (forall k, k <= j -> root_running e (i + k) = true) ->
                 select_error e (i + j) = None ->
                 geocache w !! cache_key city state = Some r ->
                 result_queue w' = result_queue w ++ evs ->
                 evs !! j
                 = Some (success_cached city state (latitude r)
                           (longitude r))))
    with (locations := locations) (i := i) (w := w) as (w' & Hf & HP).
  - intros i0 w0 _ evs j city state r Hl. discriminate.
  - intros i0 l rest w0 Hstop _ evs j city state r _ Hrun.
    specialize (Hrun 0 ltac:(lia)). rewrite Nat.add_0_r in Hrun. congruence.
  - intros i0 c s rest w0 w1 w2 Hrun Hb Hfr IH Hnd evs j city state r Hl
      Hrunj Hsel Hrow Hq.
    destruct (queue_split e i0 c s rest w0 w1 w2 evs Hrun Hb Hfr Hq)
      as (it & evs' & -> & Hq1 & Hq2).
    rewrite fmap_cons in Hnd. apply NoDup_cons in Hnd as [Hnin Hnd].
    destruct j as [|j]; simpl in Hl |- *.
    + injection Hl as -> ->. rewrite Nat.add_0_r in Hsel.
      destruct (loop_body_shape e i0 city state w0)
        as [[Hstop _]|[(_ & r' & _ & Hr' & Hb')|(_ & Hmiss & _)]].
      * congruence.
      * rewrite Hb' in Hb. injection Hb as <-.
        unfold result_queue in Hq1. simpl in Hq1.
        rewrite queue_of_app in Hq1. apply app_inv_head in Hq1.
        simpl in Hq1. injection Hq1 as <-. congruence.
      * unfold cached_coords in Hmiss. rewrite Hsel, Hrow in Hmiss.
        discriminate.
    + apply (IH Hnd evs' j city state r Hl).
      * intros k Hk. replace (S i0 + k) with (i0 + S k) by lia.
        apply Hrunj. lia.
      * replace (S i0 + j) with (i0 + S j) by lia. assumption.
      * rewrite <- Hrow. eapply loop_body_other_key; [eassumption|].
        intros He. apply Hnin. apply list_elem_of_fmap.
        exists (city, state). split; [exact He|].
        eapply list_elem_of_lookup_2. eassumption.
      * assumption.
  - rewrite Hf. exact HP.
Qed.

(** X7. When the keys of the locations are pairwise distinct, a location
    geocoded in one batch, its write not failing, has its coordinates in the
    table at the end of that batch; a later batch over the same list that
    starts from that table, reaches the location before any stop and looks
    it up without failure puts [success_cached] for it with those very
    coordinates. *)
Theorem cached_coordinates_are_those_geocoded (e1 e2 : env)
    (locations : list location) (g : gmap string row) (i : nat)
    (city state : string) (lat lon : float) :
  NoDup (key_of <$> locations) ->
  thread_items e1 locations g !! i
  = Some (success_geocoded city state lat lon) ->
  replace_error e1 i = None ->
  (forall k, k <= i -> root_running e2 k = true) ->
  select_error e2 i = None ->
  thread_geocache e1 locations g !! cache_key city state
  = Some {| latitude := lat; longitude := lon; last_accessed := now e1 i |}
  /\ thread_items e2 locations (thread_geocache e1 locations g) !! i
     = Some (success_cached city state lat lon).
Proof.
  intros Hnd Hi Hrep Hrun Hsel.
  destruct (for_each_spec e1 locations 0 {| geocache := g; history := [] |})
    as (evs & wa & Hf & Hq & _ & _).
  destruct (thread_items_eq e1 locations g wa Hf) as [Hitems Hcache].
  rewrite Hitems, Hq in Hi. simpl in Hi.
  assert (Hi' : evs !! i = Some (success_geocoded city state lat lon)).
  { apply lookup_app_Some in Hi as [Hi|[_ Hi]]; [assumption|].
    apply list_lookup_singleton_Some in Hi as [_ Hi]. discriminate. }
  assert (Hrow : thread_geocache e1 locations g !! cache_key city state
                 = Some {| latitude := lat; longitude := lon;
                           last_accessed := now e1 i |}).
  { rewrite Hcache.
    pose proof (for_each_geocoded_row e1 locations 0
                  {| geocache := g; history := [] |} Hnd evs i city state
                  lat lon) as H.
    rewrite Hf in H. apply H; assumption. }
  split; [exact Hrow|].
  destruct (for_each_item e1 locations 0 _ wa evs i _ Hf Hq Hi')
    as (l & w1 & w2 & Hl & Hr & Hb & Hq2 & _).
  simpl in Hr, Hb.
  destruct (loop_body_geocoded e1 i l city state lat lon w1 w2 _ Hr Hb Hq2
              Hrep) as [-> _].
  destruct (for_each_spec e2 locations 0
              {| geocache := thread_geocache e1 locations g; history := [] |})
    as (evs2 & wb & Hf2 & Hq2' & _ & _).
  destruct (thread_items_eq e2 locations _ wb Hf2) as [-> _].
  rewrite Hq2'. simpl. apply lookup_app_l_Some.
  pose proof (for_each_cached_row e2 locations 0
                {| geocache := thread_geocache e1 locations g;
                   history := [] |} Hnd evs2 i city state _ Hl Hrun Hsel Hrow)
    as H.
  rewrite Hf2 in H. apply H. exact Hq2'.
Qed.

Lemma cached_coordinates_are_those_geocoded_witness :
  thread_geocache (Scenarios.locating_env (fun _ => false) 1 2)
    Scenarios.five_locations ∅ !! cache_key "Oxford" "MS"
  = Some {| latitude := 1; longitude := 2;
            last_accessed :=
              now (Scenarios.locating_env (fun _ => false) 1 2) 3 |}
  /\ thread_items (Scenarios.locating_env (fun _ => false) 3 4)
       Scenarios.five_locations
       (thread_geocache (Scenarios.locating_env (fun _ => false) 1 2)
          Scenarios.five_locations ∅) !! 3
     = Some (success_cached "Oxford" "MS" 1 2).
Proof.
  apply (cached_coordinates_are_those_geocoded
           (Scenarios.locating_env (fun _ => false) 1 2)
           (Scenarios.locating_env (fun _ => false) 3 4)
           Scenarios.five_locations ∅ 3 "Oxford" "MS" 1 2).
  - apply (bool_decide_unpack
             (NoDup (key_of <$> Scenarios.five_locations))).
    vm_compute. exact I.
  - vm_compute. reflexivity.
  - reflexivity.
  - intros k _. reflexivity.
  - reflexivity.
Defined.

End BatchFacts.

(** ** The drain of the result queue, case by case *)

Module DrainFacts.
Import Worker App Reading AppFacts.






(** Without the map widget the finalize step only writes the status bar. *)
Lemma finalize_without_widget (u : ui_env) (s : state) :
  map_widget s = false ->
  _finalize_map_loading u s
  = update_status "Map finalization skipped (widget destroyed)." s.
Proof.
  intros Hw. unfold _finalize_map_loading. rewrite Hw.
  unfold update_status. simpl.
  destruct (status_label s) eqn:E; simpl; rewrite ?E; reflexivity.
Qed.

(** X9. Without the map widget a call of [_process_geocoding_results]
    handles no result tuple: it takes at most the first item off the queue
    and drops it, places no marker, changes neither counter, nor the view,
    nor the map status label, schedules no timer callback, and stops
    polling; the thread is forgotten only if the dropped item was
    [finished]. *)
Theorem drain_without_widget (u : ui_env) (s : state) :
  map_widget s = false ->
  queue_contents (_process_geocoding_results u s) = tail (queue_contents s)
  /\ map_markers (_process_geocoding_results u s) = map_markers s
  /\ canvas_markers (_process_geocoding_results u s) = canvas_markers s
  /\ geolocated_count (_process_geocoding_results u s) = geolocated_count s
  /\ skipped_count (_process_geocoding_results u s) = skipped_count s
  /\ map_view (_process_geocoding_results u s) = map_view s
  /\ map_status_label (_process_geocoding_results u s) = map_status_label s
  /\ after_scheduled (_process_geocoding_results u s) = after_scheduled s
  /\ processing_queue (_process_geocoding_results u s)
     = match queue_contents s with
       | [] => processing_queue s && negb (running s)
       | _ :: _ => false
       end
  /\ geocoding_thread (_process_geocoding_results u s)
     = match queue_contents s with
       | finished :: _ => None
       | _ => geocoding_thread s
       end.
Proof.
  intros Hw. unfold _process_geocoding_results.
  assert (Htail : forall (s0 : state) (rest : list item),
            geocoding_queue s0 = geocoding_queue s ->
            queues s0 = <[geocoding_queue s := rest]> (queues s) ->
            rest = tail (queue_contents s) ->
            queue_contents s0 = tail (queue_contents s)).
  { intros s0 rest Hg Hq ->. unfold queue_contents at 1. rewrite Hg, Hq.
    destruct (decide (geocoding_queue s < length (queues s))) as [Hlt|Hge].
    - rewrite list_lookup_insert_eq by assumption. reflexivity.
    - rewrite list_insert_ge by lia. unfold queue_contents.
      rewrite lookup_ge_None_2 by lia. reflexivity. }
  destruct (queue_contents s) as [|it rest] eqn:Hq.
  - cbn [drain]. simpl.
    destruct (processing_queue s) eqn:Hp, (running s) eqn:Hr; simpl;
      rewrite ?Hw; simpl;
      (split; [eapply Htail; simpl; reflexivity|]);
      rewrite ?Hp, ?Hr; split_and!; reflexivity.
  - cbn [drain].
    assert (H1 : exists s1,
              match it with
              | finished =>
                  _finalize_map_loading u
                    (set_geocoding_thread None (set_processing_queue false s))
              | _ => s
              end = s1
              /\ map_widget s1 = false
              /\ geocoding_queue s1 = geocoding_queue s
              /\ queues s1 = queues s
              /\ map_markers s1 = map_markers s
              /\ canvas_markers s1 = canvas_markers s
              /\ geolocated_count s1 = geolocated_count s
              /\ skipped_count s1 = skipped_count s
              /\ map_view s1 = map_view s
              /\ map_status_label s1 = map_status_label s
              /\ after_scheduled s1 = after_scheduled s
              /\ geocoding_thread s1
                 = match it with
                   | finished => None
                   | _ => geocoding_thread s
                   end).
    { destruct it; try (exists s; split_and!; done).
      eexists. split; [reflexivity|].
      rewrite finalize_without_widget by exact Hw.
      split_and!; status_cases; exact Hw. }
    destruct H1 as (s1 & -> & Hw1 & Hg1 & Hq1 & Hm1 & Hc1 & Hgc1 & Hk1 & Hv1
                    & Hl1 & Ha1 & Ht1).
    rewrite Hw1. cbn [negb]. simpl.
    split; [eapply Htail; simpl; [exact Hg1|rewrite Hq1; reflexivity|
                                  reflexivity]|].
    split_and!; try assumption; try reflexivity.
Qed.

Lemma drain_without_widget_witness :
  queue_contents
    (_process_geocoding_results Scenarios.drawing_ui
       (on_closing Scenarios.nowhere_put))
  = tail (queue_contents (on_closing Scenarios.nowhere_put))
  /\ skipped_count
       (_process_geocoding_results Scenarios.drawing_ui
          (on_closing Scenarios.nowhere_put))
     = skipped_count (on_closing Scenarios.nowhere_put).
Proof.
  destruct (drain_without_widget Scenarios.drawing_ui
              (on_closing Scenarios.nowhere_put))
    as (H1 & _ & _ & _ & H5 & _).
  - reflexivity.
  - exact (conj H1 H5).
Defined.


Lemma update_status_label (msg : string) (s : state) :
  is_Some (status_label s) ->
  status_label (update_status msg s) = Some msg
  /\ status_text (update_status msg s) = msg.
Proof.
  intros [l Hl]. unfold update_status. simpl. rewrite Hl. split; reflexivity.
Qed.






Lemma markers_agree_ext (s s' : state) :
  canvas_markers s' = canvas_markers s ->
  map_markers s' = map_markers s ->
  geolocated_count s' = geolocated_count s ->
  markers_agree s -> markers_agree s'.
Proof. unfold markers_agree. intros -> -> ->. auto. Qed.

Lemma process_item_markers (u : ui_env) (i : nat) (it : item) (s : state) :
  markers_agree s -> markers_agree (process_item u i it s).
Proof.
  intros (Hlen & Hin & Hsize).
  assert (Hplace :
    forall city state lat lon,
    markers_agree
      (process_item u i (success city state lat lon) s)).
  { intros city state lat lon. unfold process_item.
    destruct (set_marker_raises u i) eqn:Hraise.
    - apply (markers_agree_ext s); try reflexivity. split_and!; assumption.
    - set (m := {| position := (lat, lon);
                   data := info_text_for_popup (_grouped_cases_by_location s)
                             city state |}).
      apply (markers_agree_ext
               (set_geolocated_count (S (geolocated_count s))
                  (set_map_markers (<[(city, state) := m]> (map_markers s))
                     (set_canvas_markers (canvas_markers s ++ [m]) s))));
        [unfold update_status; simpl; ui_cases u i s; reflexivity..|].
      split_and!; simpl.
      + rewrite length_app. simpl. lia.
      + intros l m' Hl. apply elem_of_app.
        apply lookup_insert_Some in Hl as [[_ <-]|[_ Hl]].
        * right. apply list_elem_of_here.
        * left. eauto.
      + rewrite map_size_insert.
        destruct (map_markers s !! (city, state)); simpl; lia. }
  destruct it; try apply Hplace.
  - apply (markers_agree_ext s); [simpl; status_cases..|].
    split_and!; assumption.
  - split_and!; assumption.
Qed.

Lemma drain_markers (u : ui_env) (items : list item) :
  forall (i : nat) (s : state),
  markers_agree s -> markers_agree (drain u i items s).1.
Proof.
  induction items as [|it items IH]; intros i s Hm; [exact Hm|].
  cbn [drain].
  set (s1 := match it with
             | finished =>
                 _finalize_map_loading u
                   (set_geocoding_thread None (set_processing_queue false s))
             | _ => s
             end).
  assert (Hm1 : markers_agree s1).
  { subst s1. destruct it; try exact Hm.
    destruct (finalize_frame u
                (set_geocoding_thread None (set_processing_queue false s)))
      as (_ & _ & _ & Hg & _ & Hmm & Hc).
    eapply (markers_agree_ext s); eassumption. }
  destruct (map_widget s1); cbn [negb].
  - apply IH. apply process_item_markers. exact Hm1.
  - exact Hm1.
Qed.

Lemma process_results_markers (u : ui_env) (s : state) :
  markers_agree s -> markers_agree (_process_geocoding_results u s).
Proof.
  intros Hm. unfold _process_geocoding_results.
  pose proof (drain_markers u (queue_contents s) 0 s Hm) as Hd.
  destruct (drain u 0 (queue_contents s) s) as [s' rest]. simpl in Hd.
  match goal with
  | |- context [if ?b then _ else _] => destruct b
  end; [destruct (map_widget _)|];
    apply (markers_agree_ext s'); try reflexivity; exact Hd.
Qed.

Lemma load_markers (u : ui_env) (le : load_env) (s : state) :
  map_widget s = true ->
  thread_is_alive s = false ->
  markers_agree (load_map_markers u le s).
Proof.
  intros Hw Ha.
  assert (Hempty : forall s0 : state,
            canvas_markers s0 = [] -> map_markers s0 = ∅ ->
            geolocated_count s0 = 0 -> markers_agree s0).
  { intros s0 Hc Hmm Hg. unfold markers_agree. rewrite Hc, Hmm, Hg.
    split_and!; [reflexivity| |rewrite map_size_empty; lia].
    intros l m Hl. rewrite lookup_empty in Hl. discriminate. }
  destruct (load_locations le) as [|l ls] eqn:Hl.
  - unfold load_map_markers. rewrite Hw, Ha. simpl.
    destruct (all_cases le) as [|c cases] eqn:Hc;
      [apply Hempty; status_cases|].
    unfold load_locations in Hl. rewrite Hc in Hl. rewrite Hl.
    apply Hempty; status_cases.
  - destruct (load_before_drain u le s Hw Ha)
      as (s2 & -> & _ & _ & _ & _ & _ & _ & _ & _ & _ & Hcm & Hmm & Hg & _);
      [rewrite Hl; discriminate|].
    apply process_results_markers. apply Hempty; assumption.
Qed.

(** X11. From a load that its guards admit on, whatever the threads, the
    timer and the closing of the window do until the next load, the markers
    and the counter agree: exactly [geolocated_count] markers are drawn on
    the map, every marker registered in [map_markers] is one of them, and
    [map_markers] has at most [geolocated_count] entries. *)
Theorem markers_match_counter (steps : list cycle_step) (u : ui_env)
    (le : load_env) (s : state) :
  map_widget s = true ->
  thread_is_alive s = false ->
  markers_agree (run_cycle steps (load_map_markers u le s)).1.
Proof.
  intros Hw Ha. pose proof (load_markers u le s Hw Ha) as Hm.
  generalize dependent (load_map_markers u le s). clear.
  induction steps as [|c steps IH]; intros s Hm; [exact Hm|].
  simpl. specialize (IH (run_step c s)).
  destruct (run_cycle steps (run_step c s)) as [s' m]. simpl in *.
  apply IH. destruct c as [t|t|u|]; simpl.
  - unfold thread_put. destruct (threads s !! t) as [th|]; [|exact Hm].
    destruct (th_alive th), (th_pending th); exact Hm.
  - unfold thread_exit. destruct (threads s !! t) as [th|]; [|exact Hm].
    destruct (th_pending th); exact Hm.
  - apply process_results_markers. exact Hm.
  - exact Hm.
Qed.

Lemma markers_match_counter_witness :
  markers_agree
    (run_cycle [do_put 0; do_timer (Scenarios.failing_ui 0); do_put 0;
                do_timer Scenarios.drawing_ui]
       (load_map_markers Scenarios.drawing_ui
          (Scenarios.locating_load Scenarios.jackson_cases 32.25 (-90.25))
          initial)).1.
Proof.
  apply (markers_match_counter
           [do_put 0; do_timer (Scenarios.failing_ui 0); do_put 0;
            do_timer Scenarios.drawing_ui]
           Scenarios.drawing_ui
           (Scenarios.locating_load Scenarios.jackson_cases 32.25 (-90.25))
           initial).
  - reflexivity.
  - reflexivity.
Defined.

End DrainFacts.

(** ** What a load sets up *)

Module LoadFacts.
Import Worker App Reading AppFacts DrainFacts.

Lemma cases_at_snoc (l : location) (pre : list case) (c : case) :
  cases_at l (pre ++ [c])
  = cases_at l pre
    ++ (if groupable c && bool_decide (location_of c = l) then [c] else []).
Proof. unfold cases_at. rewrite List.filter_app. reflexivity. Qed.

Lemma group_entry_default (cs : list case) :
  default [] (group_entry cs) = cs.
Proof. destruct cs; reflexivity. Qed.

Lemma group_entry_snoc (cs : list case) (c : case) :
  group_entry (cs ++ [c]) = Some (cs ++ [c]).
Proof. destruct cs; reflexivity. Qed.

Lemma group_case_groupable (acc : gset location * gmap location (list case))
    (c : case) :
  group_case acc c
  = if groupable c then
      ({[location_of c]} ∪ acc.1,
       <[location_of c := default [] (acc.2 !! location_of c) ++ [c]]> acc.2)
    else acc.
Proof. reflexivity. Qed.

(** The grouping loop, started after the cases [pre]. *)
Lemma group_cases_from (cases : list case) :
  forall (pre : list case)
         (acc : gset location * gmap location (list case)),
  (forall l, acc.2 !! l = group_entry (cases_at l pre)) ->
  (forall l, l ∈ acc.1 <-> cases_at l pre <> []) ->
  (forall l,
     (foldl group_case acc cases).2 !! l
     = group_entry (cases_at l (pre ++ cases)))
  /\ (forall l,
        l ∈ (foldl group_case acc cases).1 <-> cases_at l (pre ++ cases) <> []).
Proof.
  induction cases as [|c cases IH]; intros pre acc Hmap Hset.
  - simpl. rewrite app_nil_r. split; assumption.
  - simpl foldl.
    replace (pre ++ c :: cases) with ((pre ++ [c]) ++ cases)
      by (rewrite <- app_assoc; reflexivity).
    apply IH; intros l; rewrite group_case_groupable, cases_at_snoc;
      destruct (groupable c) eqn:Hg; simpl.
    + destruct (decide (location_of c = l)) as [<-|Hne].
      * rewrite lookup_insert_eq, Hmap, group_entry_default.
        rewrite bool_decide_eq_true_2 by reflexivity.
        symmetry. apply group_entry_snoc.
      * rewrite lookup_insert_ne by assumption.
        rewrite bool_decide_eq_false_2 by assumption.
        rewrite app_nil_r. apply Hmap.
    + rewrite app_nil_r. apply Hmap.
    + destruct (decide (location_of c = l)) as [<-|Hne].
      * rewrite bool_decide_eq_true_2 by reflexivity.
        split.
        -- intros _ H. apply app_eq_nil in H as [_ H]. discriminate.
        -- intros _. apply elem_of_union. left.
           apply elem_of_singleton. reflexivity.
      * rewrite bool_decide_eq_false_2 by assumption. rewrite app_nil_r.
        rewrite elem_of_union, elem_of_singleton, Hset. split; [|auto].
        intros [E|H]; [congruence|assumption].
    + rewrite app_nil_r. apply Hset.
Qed.

(** X12. The grouping of a load: the locations are those of the cases whose
    trimmed city and state are both non-empty, each listed once; the cases
    grouped under a location are exactly the cases of that location, in
    the order of the list, and no other key is in the grouping. *)
Theorem grouping_by_location (cases : list case) (l : location) :
  (group_cases cases).2 !! l = group_entry (cases_at l cases)
  /\ (l ∈ list_of_unique_locations cases <-> cases_at l cases <> [])
  /\ NoDup (list_of_unique_locations cases)
  /\ dom (group_cases cases).2 = unique_locations cases.
Proof.
  destruct (group_cases_from cases [] (∅, ∅)) as [Hmap Hset].
  { intros l0. simpl. apply lookup_empty. }
  { intros l0. simpl. split.
    - intros H. apply elem_of_empty in H. contradiction.
    - intros H. contradiction. }
  simpl in Hmap, Hset. split_and!.
  - apply Hmap.
  - unfold list_of_unique_locations, unique_locations, group_cases.
    etransitivity; [apply elem_of_elements|]. apply Hset.
  - unfold list_of_unique_locations. apply NoDup_elements.
  - apply set_eq. intros l0. unfold unique_locations, group_cases.
    etransitivity; [apply elem_of_dom|].
    etransitivity; [|symmetry; apply Hset].
    rewrite Hmap.
    destruct (cases_at l0 cases); simpl; split.
    + intros [? [=]].
    + intros H. contradiction.
    + intros _. discriminate.
    + intros _. eexists. reflexivity.
Qed.

(** Membership in the location list, by the cases. *)
Lemma locations_member (cases : list case) (l : location) :
  l ∈ list_of_unique_locations cases
  <-> exists c, c ∈ cases /\ groupable c = true /\ location_of c = l.
Proof.
  destruct (group_cases_from cases [] (∅, ∅)) as [_ Hset].
  { intros l0. simpl. apply lookup_empty. }
  { intros l0. simpl. split.
    - intros H. apply elem_of_empty in H. contradiction.
    - intros H. contradiction. }
  simpl in Hset.
  unfold list_of_unique_locations, unique_locations, group_cases.
  etransitivity; [apply elem_of_elements|].
  etransitivity; [apply Hset|]. unfold cases_at. split.
  - intros Hne.
    destruct (List.filter
                (fun c => groupable c && bool_decide (location_of c = l))
                cases) as [|c r] eqn:Hf; [contradiction|].
    assert (Hin : List.In c (List.filter
                (fun c => groupable c && bool_decide (location_of c = l))
                cases)) by (rewrite Hf; left; reflexivity).
    apply List.filter_In in Hin as [Hin Hb].
    apply andb_true_iff in Hb as [Hg Hb]. apply bool_decide_eq_true in Hb.
    exists c. split_and!; [apply list_elem_of_In; exact Hin|exact Hg|exact Hb].
  - intros (c & Hin & Hg & Hl) Hnil.
    assert (Hc : List.In c (List.filter
                (fun c => groupable c && bool_decide (location_of c = l))
                cases)).
    { apply List.filter_In. split; [apply list_elem_of_In; exact Hin|].
      rewrite Hg. simpl. apply bool_decide_eq_true. exact Hl. }
    rewrite Hnil in Hc. destruct Hc.
Qed.

Lemma no_locations (cases : list case) :
  list_of_unique_locations cases = []
  <-> (forall c, c ∈ cases -> groupable c = false).
Proof.
  split.
  - intros Hnil c Hin. destruct (groupable c) eqn:Hg; [|reflexivity].
    assert (H : location_of c ∈ list_of_unique_locations cases)
      by (apply locations_member; eauto).
    rewrite Hnil in H. apply elem_of_nil in H. contradiction.
  - intros Hall.
    destruct (list_of_unique_locations cases) as [|l ls] eqn:Hl;
      [reflexivity|].
    assert (H : l ∈ list_of_unique_locations cases)
      by (rewrite Hl; apply list_elem_of_here).
    apply locations_member in H as (c & Hin & Hg & _).
    rewrite (Hall c Hin) in Hg. discriminate.
Qed.

(** X13. A load that gets past its guards and finds no case with a
    non-empty trimmed city and state, in particular no case at all, starts
    no thread and makes no queue, schedules no timer callback and leaves
    polling as it was; the markers are cleared, both counters are zero, the
    view is centred on Mississippi at zoom 7, the map status label is not
    touched, and the status bar tells which of the two it was. *)
Theorem load_without_locations (u : ui_env) (le : load_env) (s : state) :
  map_widget s = true ->
  thread_is_alive s = false ->
  (forall c, c ∈ all_cases le -> groupable c = false) ->
  threads (load_map_markers u le s) = threads s
  /\ queues (load_map_markers u le s) = queues s
  /\ geocoding_thread (load_map_markers u le s) = geocoding_thread s
  /\ geocoding_queue (load_map_markers u le s) = geocoding_queue s
  /\ processing_queue (load_map_markers u le s) = processing_queue s
  /\ after_scheduled (load_map_markers u le s) = after_scheduled s
  /\ canvas_markers (load_map_markers u le s) = []
  /\ map_markers (load_map_markers u le s) = ∅
  /\ geolocated_count (load_map_markers u le s) = 0
  /\ skipped_count (load_map_markers u le s) = 0
  /\ map_view (load_map_markers u le s) = centered 32.7 (-89.5) 7
  /\ map_status_label (load_map_markers u le s) = map_status_label s
  /\ status_text (load_map_markers u le s)
     = match all_cases le with
       | [] => "Map status: No cases to geocode."
       | _ :: _ => "Map status: No geolocatable cases (missing city/state)."
       end%string.
Proof.
  intros Hw Ha Hall. apply no_locations in Hall.
  unfold load_map_markers. rewrite Hw, Ha. simpl.
  destruct (all_cases le) as [|c cases]; [split_and!; status_cases|].
  unfold list_of_set. unfold list_of_unique_locations in Hall.
  rewrite Hall. split_and!; status_cases.
Qed.

Lemma load_without_locations_witness :
  threads
    (load_map_markers Scenarios.drawing_ui
       (Scenarios.locating_load
          [ {| city_of_offense := Some "   "%string;
               state_of_offense := Some "MS"%string;
               offense_type := Some "Fraud"%string |};
            {| city_of_offense := Some "Jackson"%string;
               state_of_offense := None;
               offense_type := None |} ] 32.25 (-90.25))
       initial) = []
  /\ status_text
       (load_map_markers Scenarios.drawing_ui
          (Scenarios.locating_load
             [ {| city_of_offense := Some "   "%string;
                  state_of_offense := Some "MS"%string;
                  offense_type := Some "Fraud"%string |};
               {| city_of_offense := Some "Jackson"%string;
                  state_of_offense := None;
                  offense_type := None |} ] 32.25 (-90.25))
          initial)
     = "Map status: No geolocatable cases (missing city/state)."%string.
Proof.
  destruct (load_without_locations Scenarios.drawing_ui
              (Scenarios.locating_load
                 [ {| city_of_offense := Some "   "%string;
                      state_of_offense := Some "MS"%string;
                      offense_type := Some "Fraud"%string |};
                   {| city_of_offense := Some "Jackson"%string;
                      state_of_offense := None;
                      offense_type := None |} ] 32.25 (-90.25))
              initial)
    as (H1 & _ & _ & _ & _ & _ & _ & _ & _ & _ & _ & _ & H13).
  - reflexivity.
  - reflexivity.
  - apply Forall_forall. repeat constructor.
  - exact (conj H1 H13).
Defined.






End LoadFacts.
